(** * webprobe: the crawl controller of [index.ts]

    A shallow embedding of the crawl loop of [probe], of the response
    observer it registers and of [shouldSkipUrl], with the properties of
    the crawl's four collections ([links], [visits], [requests],
    [domains]).

    What the program takes from its platform is kept apart from what it
    computes itself:
    - the [URL] class (WHATWG URL record, its getters, the serializer and
      the [hash] setter) is modelled as a record; its parser [new URL] is
      a field of [Platform];
    - [micromatch.isMatch] is the other field of [Platform];
    - the page driver (Playwright) and [Math.random] are the fields of
      [Env], indexed by the iteration of the crawl loop. *)

From Stdlib Require Import List String Ascii Bool Arith ZArith QArith Qround Lia.
From Stdlib Require Import Lqa Sorted Permutation.
Import ListNotations.
Local Close Scope Q_scope.
Local Open Scope nat_scope.
Local Open Scope list_scope.
Local Open Scope string_scope.

(** ** JavaScript strings

    The strings the program inspects (host names, URL paths, file
    extensions) are ASCII, so a string is a [string] of bytes. *)
Module JSString.

(** One character of [String.prototype.toLowerCase], on ASCII: the
    letters [A]..[Z] move by 32, everything else stays. *)
Definition lower_ascii (c : ascii) : ascii :=
  let n := nat_of_ascii c in
  if ((65 <=? n) && (n <=? 90))%nat then ascii_of_nat (n + 32) else c.

Fixpoint toLowerCase (s : string) : string :=
  match s with
  | EmptyString => EmptyString
  | String c r => String (lower_ascii c) (toLowerCase r)
  end.

(** [s.endsWith(ext)]: the last [length ext] characters of [s] are [ext]. *)
Definition endsWith (s ext : string) : bool :=
  (String.length ext <=? String.length s)%nat
  && String.eqb (substring (String.length s - String.length ext)
                           (String.length ext) s) ext.

End JSString.
Import JSString.

(** ** JavaScript [Set<string>] and [Map<string, number>]

    Both iterate in insertion order, and [saveReport] and the choice of
    the next page read them in that order: a set is the list of its
    elements in insertion order, a map the list of its entries. *)
Module JSSet.

Definition t := list string.

Definition empty : t := [].

Definition has (x : string) (s : t) : bool := existsb (String.eqb x) s.

(** [s.add(x)]: appended when absent, nothing otherwise. *)
Definition add (x : string) (s : t) : t :=
  if has x s then s else (s ++ [x])%list.

(** [s.difference(o)]: the elements of [s] that [o] lacks, in the order
    of [s]. *)
Definition difference (s o : t) : t :=
  filter (fun x => negb (has x o)) s.

End JSSet.

Module JSMap.

Definition t := list (string * Z).

Definition empty : t := [].

Fixpoint get (k : string) (m : t) : option Z :=
  match m with
  | [] => None
  | (k', v) :: r => if String.eqb k k' then Some v else get k r
  end.

(** [m.set(k, v)]: an existing key keeps its place and takes the new
    value, a new key goes last. *)
Fixpoint set (k : string) (v : Z) (m : t) : t :=
  match m with
  | [] => [(k, v)]
  | (k', v') :: r =>
      if String.eqb k k' then (k', v) :: r else (k', v') :: set k v r
  end.

Definition keys (m : t) : list string := map fst m.

End JSMap.

(** ** The platform's [URL] class *)

(** A URL record of the WHATWG URL standard. [path] is the serialized
    path; a null host, port, query or fragment is [None]. *)
Record URL := mkURL {
  scheme : string;
  username : string;
  password : string;
  host : option string;
  port : option string;
  path : string;
  query : option string;
  fragment : option string
}.

Definition or_empty (o : option string) : string :=
  match o with Some s => s | None => "" end.

(** The getters [hostname], [pathname] and [hash]. *)
Definition hostname (u : URL) : string := or_empty (host u).

Definition pathname (u : URL) : string := path u.

Definition hash (u : URL) : string :=
  match fragment u with
  | None | Some "" => ""
  | Some f => "#" ++ f
  end.

(** The URL serializer, which the getter [href] returns. *)
Definition authority (u : URL) : string :=
  match host u with
  | None => ""
  | Some h =>
      "//"
      ++ (if (username u =? "") && (password u =? "") then ""
          else username u
               ++ (if password u =? "" then "" else ":" ++ password u)
               ++ "@")
      ++ h
      ++ match port u with Some p => ":" ++ p | None => "" end
  end.

Definition href (u : URL) : string :=
  scheme u ++ ":" ++ authority u
  ++ (match host u with
      | None => if prefix "//" (path u) then "/." else ""
      | Some _ => ""
      end)
  ++ path u
  ++ match query u with Some q => "?" ++ q | None => "" end
  ++ match fragment u with Some f => "#" ++ f | None => "" end.

(** The setter [u.hash = ""]: the fragment becomes null. (On a URL with an
    opaque path the standard also strips the path's trailing spaces; such
    a URL has no host.) *)
Definition clear_hash (u : URL) : URL :=
  mkURL (scheme u) (username u) (password u) (host u) (port u) (path u)
        (query u) None.

(** What [index.ts] calls and does not define. [URL_new input base] is
    [new URL(input, base)] ([new URL(input)] when [base] is [None]); it
    answers [None] where the constructor throws a [TypeError].
    [isMatch str pattern] is [micromatch.isMatch(str, pattern)] on a
    non-empty pattern, where it does not throw. *)
Record Platform := mkPlatform {
  URL_new : string -> option string -> option URL;
  isMatch : string -> string -> bool
}.

(** ** [SKIP_EXTENSIONS] and [shouldSkipUrl] *)

Definition SKIP_EXTENSIONS : list string :=
  [ (* Archives *)
    ".zip"; ".tar"; ".gz"; ".tgz"; ".rar"; ".7z"; ".bz2";
    (* Documents *)
    ".pdf"; ".doc"; ".docx"; ".xls"; ".xlsx"; ".ppt"; ".pptx"; ".odt";
    (* Images *)
    ".jpg"; ".jpeg"; ".png"; ".gif"; ".bmp"; ".svg"; ".webp"; ".ico";
    ".tiff";
    (* Audio *)
    ".mp3"; ".wav"; ".ogg"; ".flac"; ".aac"; ".m4a";
    (* Video *)
    ".mp4"; ".avi"; ".mkv"; ".mov"; ".wmv"; ".webm"; ".flv";
    (* Fonts *)
    ".woff"; ".woff2"; ".ttf"; ".otf"; ".eot";
    (* Data *)
    ".json"; ".xml"; ".csv"; ".rss"; ".atom";
    (* Code/binary *)
    ".exe"; ".dmg"; ".apk"; ".deb"; ".rpm"; ".msi"; ".bin"; ".iso";
    (* Source maps & misc *)
    ".map"; ".wasm" ].

(** [shouldSkipUrl(url)]; [None] when [new URL(url)] throws. *)
Definition shouldSkipUrl (P : Platform) (url : string) : option bool :=
  match URL_new P url None with
  | None => None
  | Some u =>
      let pathname := toLowerCase (pathname u) in
      Some (existsb (fun ext => endsWith pathname ext) SKIP_EXTENSIONS)
  end.

(** ** The anchors loop: scope, filter, discovery *)

(** [domain.some((d) => micromatch.isMatch(hostname, d))]. *)
Definition isInScope (P : Platform) (hostname : string)
  (domain : list string) : bool :=
  existsb (fun d => isMatch P hostname d) domain.

(** The body of the [try] block for one non-empty [href]: the link that
    [links.add] receives, or [None] when nothing is added (the [if] fails,
    or [new URL] throws inside the block or inside [shouldSkipUrl] and the
    empty [catch] takes over). [url] is the seed, the [url] of [probe]. *)
Definition accept (P : Platform) (url : string) (domain : list string)
  (h : string) : option string :=
  match URL_new P h (Some url) with
  | None => None
  | Some parsed =>
      let absoluteUrl := clear_hash parsed in
      if isInScope P (hostname absoluteUrl) domain then
        match shouldSkipUrl P (href absoluteUrl) with
        | Some false => Some (href absoluteUrl)
        | Some true => None
        | None => None
        end
      else None
  end.

(** One turn of [for (const anchor of anchors)]. [a] is what
    [anchor.getAttribute("href")] returned, [None] for [null]; [if (href)]
    lets neither [null] nor the empty string through. *)
Definition anchor_step (P : Platform) (url : string) (domain : list string)
  (a : option string) (links : JSSet.t) : JSSet.t :=
  match a with
  | None => links
  | Some h =>
      if h =? "" then links
      else match accept P url domain h with
           | Some l => JSSet.add l links
           | None => links
           end
  end.

(** ** The response observer *)

(** [domain.includes(x)]. *)
Definition includes (domain : list string) (x : string) : bool :=
  existsb (String.eqb x) domain.

Record Ledger := mkLedger {
  requests : JSMap.t;
  domains : JSSet.t
}.

(** The callback of [page.on("response", ...)] on a response with URL
    [fst ev] and status [snd ev]. *)
Definition record (P : Platform) (domain : list string)
  (ev : string * Z) (l : Ledger) : Ledger :=
  match URL_new P (fst ev) None with
  | None => l
  | Some requestUrl =>
      mkLedger
        (if includes domain (hostname requestUrl)
         then JSMap.set (fst ev) (snd ev) (requests l)
         else requests l)
        (JSSet.add (hostname requestUrl) (domains l))
  end.

(** The observer run over the responses of one burst, oldest first. *)
Definition observe (P : Platform) (domain : list string)
  (evs : list (string * Z)) (l : Ledger) : Ledger :=
  fold_left (fun acc ev => record P domain ev acc) evs l.

(** ** The page driver, [Math.random] and the crawl loop *)

(** What the driver reports for one navigation: [response] is the status
    of the response [page.goto] resolved to, [None] when [goto] rejected
    (timeout, transport failure) and [.catch(() => {})] left [undefined];
    [anchors] is the [href] attribute of each element that
    [page.locator("a[href]").all()] then returned. *)
Record Page := mkPage {
  response : option Z;
  anchors : list (option string)
}.

(** A value of [Math.random()]: a number in the interval [0, 1), taken
    here as an exact rational. *)
Record Draw := mkDraw {
  value : Q;
  value_range : (0 <= value)%Q /\ (value < 1)%Q
}.

(** [Math.floor(r * n)]. *)
Definition random_index (r : Draw) (n : nat) : nat :=
  Z.to_nat (Qfloor (value r * inject_Z (Z.of_nat n))).

(** One run's share of the outside world: the page the driver reports for
    the navigation of iteration [i] to a target, the draw of iteration
    [i], and the responses the driver reports before the [n]-th step of
    the loop. *)
Record Env := mkEnv {
  driver : nat -> string -> Page;
  random : nat -> Draw;
  events : nat -> list (string * Z)
}.

Inductive Exit := Exhausted | PageBudgetReached.

(** Where the loop stands: at the test [i < maxPages]; inside
    [for (const anchor of anchors)] with [rest] still to come (the
    statements after that loop run when [rest] is empty); or past the
    loop, left by [break] ([Exhausted]) or by the test. *)
Inductive Pc :=
| AtHead
| InAnchors (rest : list (option string))
| Exited (e : Exit).

(** The variables of [probe] and the log of the calls of [page.goto]. *)
Record Config := mkConfig {
  links : JSSet.t;
  visits : JSSet.t;
  ledger : Ledger;
  nextUrl : string;
  i : nat;
  pc : Pc;
  navigations : list string
}.

(** The two lines after [const unvisited = [...links.difference(visits)]]:
    [None] is [break]. *)
Definition nextUnvisited (links visits : JSSet.t) (r : Draw)
  : option string :=
  let unvisited := JSSet.difference links visits in
  if (List.length unvisited =? 0)%nat then None
  else Some (nth (random_index r (List.length unvisited)) unvisited "").

Section Probe.

(** The arguments of [probe] that the loop reads: the seed [url], the
    patterns [domain] and the page budget [maxPages], a count of pages. *)
Variable P : Platform.
Variable env : Env.
Variable url : string.
Variable domain : list string.
Variable maxPages : nat.

Definition init : Config :=
  mkConfig JSSet.empty JSSet.empty (mkLedger JSMap.empty JSSet.empty)
           url 0 AtHead [].

(** One step of the loop of [probe]. *)
Definition step (c : Config) : Config :=
  match pc c with
  | AtHead =>
      if (i c <? maxPages)%nat then
        mkConfig (links c) (JSSet.add (nextUrl c) (visits c)) (ledger c)
                 (nextUrl c) (i c)
                 (InAnchors (anchors (driver env (i c) (nextUrl c))))
                 (navigations c ++ [nextUrl c])%list
      else
        mkConfig (links c) (visits c) (ledger c) (nextUrl c) (i c)
                 (Exited PageBudgetReached) (navigations c)
  | InAnchors (a :: rest) =>
      mkConfig (anchor_step P url domain a (links c)) (visits c) (ledger c)
               (nextUrl c) (i c) (InAnchors rest) (navigations c)
  | InAnchors [] =>
      match nextUnvisited (links c) (visits c) (random env (i c)) with
      | None =>
          mkConfig (links c) (visits c) (ledger c) (nextUrl c) (i c)
                   (Exited Exhausted) (navigations c)
      | Some next =>
          mkConfig (links c) (visits c) (ledger c) next (S (i c))
                   AtHead (navigations c)
      end
  | Exited _ => c
  end.

(** The responses reported so far go through the observer, which writes
    [requests] and [domains] and nothing else. *)
Definition deliver (evs : list (string * Z)) (c : Config) : Config :=
  mkConfig (links c) (visits c) (observe P domain evs (ledger c))
           (nextUrl c) (i c) (pc c) (navigations c).

(** The configuration after [n] steps, the observer running in between. *)
Fixpoint run (n : nat) : Config :=
  match n with
  | 0 => init
  | S k => step (deliver (events env k) (run k))
  end.

End Probe.

(** The links that a list of anchors adds, in the order of the loop. *)
Definition extract (P : Platform) (url : string) (domain : list string)
  (anchors : list (option string)) (links : JSSet.t) : JSSet.t :=
  fold_left (fun ls a => anchor_step P url domain a ls) anchors links.

(** ** Properties of links, as the specification words them *)

(** A string compared without regard to case ends with [ext]. *)
Definition ends_with_ci (s ext : string) : Prop :=
  exists a b, s = a ++ b /\ toLowerCase b = toLowerCase ext.

(** The link that resolving [h] against [base] and clearing the fragment
    yields, when it passes the scope and the extension filter. *)
Definition accepted (P : Platform) (base : string) (scope : list string)
  (h : string) (l : string) : Prop :=
  exists u,
    URL_new P h (Some base) = Some u
    /\ l = href (clear_hash u)
    /\ (exists d, In d scope /\ isMatch P (hostname (clear_hash u)) d = true)
    /\ shouldSkipUrl P l = Some false.

(** A Link: a string that [new URL] parses to a URL without fragment
    whose serialization is the string itself (a normalized absolute URL),
    whose host name is in scope and that the extension filter lets
    through. *)
Definition is_Link (P : Platform) (scope : list string) (l : string) : Prop :=
  exists u,
    URL_new P l None = Some u
    /\ href u = l
    /\ fragment u = None
    /\ isInScope P (hostname u) scope = true
    /\ shouldSkipUrl P l = Some false.

(** The round trip of the URL standard, for the URLs of the anchors loop:
    the serialization of a URL that [new URL] produced, its fragment
    cleared, parses to that same URL. *)
Definition round_trips (P : Platform) : Prop :=
  forall h b u,
    URL_new P h b = Some u ->
    URL_new P (href (clear_hash u)) None = Some (clear_hash u).

(** Every key of the ledger parses to a URL whose host name is an element
    of the domain list. *)
Definition ledger_in_domain (P : Platform) (domain : list string)
  (l : Ledger) : Prop :=
  forall k, In k (JSMap.keys (requests l)) ->
    exists u, URL_new P k None = Some u /\ In (hostname u) domain.

(** ** A glob matcher for scope patterns *)

(** Modelled from the spec: [micromatch.isMatch] is a dependency of the
    program, its code is not part of [index.ts]. The specification gives
    it shell-glob semantics on host names: a pattern without [*] matches
    the equal string only, and [*] matches any run of characters, dots
    included, so one wildcard covers one level of subdomains or several. *)
Fixpoint glob (pattern : string) : string -> bool :=
  match pattern with
  | EmptyString => fun s => s =? ""
  | String "*"%char p =>
      fix star (s : string) : bool :=
        glob p s
        || match s with
           | EmptyString => false
           | String _ r => star r
           end
  | String c p =>
      fun s =>
        match s with
        | EmptyString => false
        | String d r => Ascii.eqb c d && glob p r
        end
  end.

(** The same semantics as a relation: [*] stands for any string [s]. *)
Inductive glob_matches : string -> string -> Prop :=
| glob_empty : glob_matches "" ""
| glob_char c p s :
    c <> "*"%char -> glob_matches p s ->
    glob_matches (String c p) (String c s)
| glob_star p s t :
    glob_matches p t -> glob_matches (String "*"%char p) (s ++ t).

Fixpoint starless (pattern : string) : bool :=
  match pattern with
  | EmptyString => true
  | String c p => negb (Ascii.eqb c "*"%char) && starless p
  end.

(** ** A reference instance of the platform

    [basic_URL_new] is [new URL] on a fragment of the URL grammar where
    parsing rewrites nothing: [http://] and [https://] URLs whose host is
    made of dot-separated labels of lower-case letters and digits, each
    starting with a letter, with no credentials and no port; paths of
    letters, digits and [-._~/] in which no segment starts with a dot;
    queries of letters, digits and [-._~=&]; fragments of letters, digits
    and [-._~]. Everything else gets [None], which says nothing about the
    platform there: the instance serves to evaluate the program on
    concrete inputs inside the fragment. *)
Module Reference.

Definition code (c : ascii) : nat := nat_of_ascii c.

Definition is_lower (c : ascii) : bool :=
  ((97 <=? code c) && (code c <=? 122))%nat.

Definition is_upper (c : ascii) : bool :=
  ((65 <=? code c) && (code c <=? 90))%nat.

Definition is_digit (c : ascii) : bool :=
  ((48 <=? code c) && (code c <=? 57))%nat.

Definition is_alnum (c : ascii) : bool :=
  is_lower c || is_upper c || is_digit c.

Definition is_mark (c : ascii) : bool :=
  Ascii.eqb c "-" || Ascii.eqb c "." || Ascii.eqb c "_" || Ascii.eqb c "~".

Fixpoint all_chars (f : ascii -> bool) (s : string) : bool :=
  match s with
  | EmptyString => true
  | String c r => f c && all_chars f r
  end.

(** The part before the first [c], and the part after it if [c] occurs. *)
Fixpoint split_at (c : ascii) (s : string) : string * option string :=
  match s with
  | EmptyString => (EmptyString, None)
  | String d r =>
      if Ascii.eqb c d then (EmptyString, Some r)
      else let (a, b) := split_at c r in (String d a, b)
  end.

Fixpoint host_ok (label_start : bool) (s : string) : bool :=
  match s with
  | EmptyString => negb label_start
  | String c r =>
      if label_start then is_lower c && host_ok false r
      else if Ascii.eqb c "." then host_ok true r
      else (is_lower c || is_digit c) && host_ok false r
  end.

Fixpoint path_ok (segment_start : bool) (s : string) : bool :=
  match s with
  | EmptyString => true
  | String c r =>
      if Ascii.eqb c "/" then path_ok true r
      else if segment_start && Ascii.eqb c "." then false
      else (is_alnum c || is_mark c) && path_ok false r
  end.

Definition query_ok (q : option string) : bool :=
  match q with
  | None => true
  | Some s =>
      all_chars (fun c => is_alnum c || is_mark c
                          || Ascii.eqb c "=" || Ascii.eqb c "&") s
  end.

Definition fragment_ok (f : option string) : bool :=
  match f with
  | None => true
  | Some s => all_chars (fun c => is_alnum c || is_mark c) s
  end.

Definition strip_prefix (p s : string) : option string :=
  if prefix p s
  then Some (substring (String.length p)
                       (String.length s - String.length p) s)
  else None.

Definition strip_scheme (s : string) : option (string * string) :=
  match strip_prefix "https://" s with
  | Some r => Some ("https", r)
  | None =>
      match strip_prefix "http://" s with
      | Some r => Some ("http", r)
      | None => None
      end
  end.

Definition parse_absolute (s : string) : option URL :=
  match strip_scheme s with
  | None => None
  | Some (sch, rest) =>
      let (rest1, frag) := split_at "#" rest in
      let (rest2, qry) := split_at "?" rest1 in
      let (hst, after) := split_at "/" rest2 in
      let pth := match after with Some t => "/" ++ t | None => "/" end in
      if host_ok true hst && path_ok false pth && query_ok qry
         && fragment_ok frag
      then Some (mkURL sch "" "" (Some hst) None pth qry frag)
      else None
  end.

(** The path up to and including its last [/]. *)
Fixpoint directory (p : string) : string :=
  match p with
  | EmptyString => EmptyString
  | String c r =>
      let d := directory r in
      if (d =? "") && negb (Ascii.eqb c "/") then EmptyString
      else String c d
  end.

(** A relative reference against a parsed base. *)
Definition resolve (input : string) (b : URL) : option URL :=
  let (rest, frag) := split_at "#" input in
  let (pth, qry) := split_at "?" rest in
  if negb (path_ok true pth && query_ok qry && fragment_ok frag)
     || prefix "//" pth
  then None
  else if pth =? "" then
    Some (mkURL (scheme b) "" "" (host b) None (path b)
                (match qry with Some _ => qry | None => query b end) frag)
  else if prefix "/" pth then
    Some (mkURL (scheme b) "" "" (host b) None pth qry frag)
  else
    Some (mkURL (scheme b) "" "" (host b) None (directory (path b) ++ pth)
                qry frag).

Definition basic_URL_new (input : string) (base : option string)
  : option URL :=
  match parse_absolute input with
  | Some u => Some u
  | None =>
      match base with
      | None => None
      | Some b =>
          match parse_absolute b with
          | None => None
          | Some bu => resolve input bu
          end
      end
  end.

Definition platform : Platform := mkPlatform basic_URL_new (fun s p => glob p s).

(** What every URL of [basic_URL_new] satisfies. *)
Definition well_formed (u : URL) : bool :=
  ((scheme u =? "https") || (scheme u =? "http"))
  && (username u =? "") && (password u =? "")
  && match port u with None => true | Some _ => false end
  && match host u with Some h => host_ok true h | None => false end
  && prefix "/" (path u) && path_ok false (path u)
  && query_ok (query u) && fragment_ok (fragment u).

End Reference.

(** ** Invariants of the loop *)

(** The navigation log against the loop counter, by program point. *)
Definition nav_inv (maxPages : nat) (c : Config) : Prop :=
  match pc c with
  | AtHead => List.length (navigations c) = i c /\ i c <= maxPages
  | InAnchors _ => List.length (navigations c) = S (i c) /\ i c < maxPages
  | Exited Exhausted =>
      List.length (navigations c) = S (i c) /\ i c < maxPages
      /\ JSSet.difference (links c) (visits c) = []
  | Exited PageBudgetReached =>
      List.length (navigations c) = maxPages /\ i c = maxPages
  end.

(** The frontier: what [links], [visits] and [nextUrl] hold. *)
Definition frontier_inv (P : Platform) (url : string) (domain : list string)
  (c : Config) : Prop :=
  incl (visits c) (url :: links c)
  /\ (nextUrl c = url \/ In (nextUrl c) (links c))
  /\ NoDup (links c)
  /\ NoDup (visits c)
  /\ (forall x, In x (links c) -> exists h, accepted P url domain h x).

(** ** Concrete runs *)

Definition draw_zero : Draw := mkDraw 0 (conj (Qle_refl 0) eq_refl).

(** A driver that reports the same page for every navigation, with no
    response event and every draw at 0. *)
Definition constant_env (page : Page) : Env :=
  mkEnv (fun _ _ => page) (fun _ => draw_zero) (fun _ => []).

(** The default scope that [main] derives from the host name of the seed. *)
Definition default_domain (hostname : string) : list string :=
  [hostname; "*." ++ hostname].

(** [s.includes(c)] for a one-character [c]. *)
Fixpoint has_char (c : ascii) (s : string) : bool :=
  match s with
  | EmptyString => false
  | String d r => Ascii.eqb c d || has_char c r
  end.

(** ** [humanBehavior] *)

(** The calls that [humanBehavior] makes on the page, in order. *)
Inductive Command :=
| MouseMove (x y steps : nat)
| WaitForTimeout (ms : Q)
| Evaluate (script : string).

(** [Math.random() * a + b]. *)
Definition random_scaled (r : Draw) (a b : Z) : Q :=
  (value r * inject_Z a + inject_Z b)%Q.

(** One turn of the first loop; [rand] lists the values of [Math.random()]
    in the order of the calls, this turn takes four of them from [4 * k]
    on. *)
Definition mouse_round (rand : nat -> Draw) (k : nat) : list Command :=
  [ MouseMove (random_index (rand (4 * k)) 700 + 100)
              (random_index (rand (4 * k + 1)) 500 + 100)
              (random_index (rand (4 * k + 2)) 20 + 5);
    WaitForTimeout (random_scaled (rand (4 * k + 3)) 400 200) ].

(** One turn of the second loop, with draw number [20 + k]. *)
Definition scroll_round (rand : nat -> Draw) (k : nat) : list Command :=
  [ Evaluate "window.scrollBy(0, window.innerHeight * 0.8)";
    WaitForTimeout (random_scaled (rand (20 + k)) 700 500) ].

Definition humanBehavior (rand : nat -> Draw) : list Command :=
  (flat_map (mouse_round rand) (seq 0 5)
   ++ flat_map (scroll_round rand) (seq 0 3)
   ++ [ WaitForTimeout (random_scaled (rand 23) 500 500);
        Evaluate "window.scrollBy(0, -window.innerHeight * 0.5)";
        WaitForTimeout (random_scaled (rand 24) 500 300) ])%list.


Definition mouse_in_bounds (c : Command) : Prop :=
  match c with
  | MouseMove x y steps =>
      100 <= x <= 799 /\ 100 <= y <= 599 /\ 5 <= steps <= 24
  | _ => True
  end.

Definition is_mouse_move (c : Command) : bool :=
  match c with MouseMove _ _ _ => true | _ => false end.

(** ** [saveReport] *)

(** [Array.prototype.sort(comparefn)]. The sort is stable, and for a
    consistent comparator the language fixes its result: the sorted
    arrangement in which elements that compare equal keep their order.
    Insertion from the left computes it. *)
Fixpoint sort_insert {A : Type} (comparefn : A -> A -> Z) (x : A)
  (l : list A) : list A :=
  match l with
  | [] => [x]
  | y :: r =>
      if (comparefn x y <? 0)%Z then x :: y :: r
      else y :: sort_insert comparefn x r
  end.

Definition Array_sort {A : Type} (comparefn : A -> A -> Z) (l : list A)
  : list A :=
  fold_left (fun acc x => sort_insert comparefn x acc) l [].

(** The comparison of [sort()] without argument, on strings: by code
    units, a proper prefix first. *)
Definition defaultCompare (a b : string) : Z :=
  match String.compare a b with
  | Lt => (-1)%Z
  | Eq => 0%Z
  | Gt => 1%Z
  end.

(** The two library functions that the report calls on URLs.
    [decodeURIComponent] answers [None] where it throws a [URIError]. *)
Record Globals := mkGlobals {
  localeCompare : string -> string -> Z;
  decodeURIComponent : string -> option string
}.

(** [statusB - statusA || urlA.localeCompare(urlB)]. *)
Definition compareRequests (G : Globals) (a b : string * Z) : Z :=
  if (snd b - snd a =? 0)%Z then localeCompare G (fst a) (fst b)
  else (snd b - snd a)%Z.

Definition errorRequests (requests : JSMap.t) : list (string * Z) :=
  filter (fun e => (400 <=? snd e)%Z) requests.

Definition okRequests (requests : JSMap.t) : list (string * Z) :=
  filter (fun e => (snd e <? 400)%Z) requests.

(** [l.map(f)] for a callback that may throw: the first exception ends
    the evaluation. *)
Fixpoint map_throwing {A B : Type} (f : A -> option B) (l : list A)
  : option (list B) :=
  match l with
  | [] => Some []
  | x :: r =>
      match f x with
      | None => None
      | Some y =>
          match map_throwing f r with
          | None => None
          | Some ys => Some (y :: ys)
          end
      end
  end.

(** A list item or table cell with a link: the [href] and the text, which
    is [decodeURIComponent] of it. *)
Record Anchor := mkAnchor {
  anchor_href : string;
  anchor_text : string
}.

Definition render_anchor (G : Globals) (u : string) : option Anchor :=
  match decodeURIComponent G u with
  | None => None
  | Some text => Some (mkAnchor u text)
  end.

Definition render_request (G : Globals) (e : string * Z)
  : option (Anchor * Z) :=
  match render_anchor G (fst e) with
  | None => None
  | Some a => Some (a, snd e)
  end.

(** The entry of [requests] that a row of the requests table shows. *)
Definition row_entry (row : Anchor * Z) : string * Z :=
  (anchor_href (fst row), snd row).

(** What the template of [saveReport] interpolates, in the order of the
    template; the markup around the values and the time stamp are left
    out. *)
Record Report := mkReport {
  report_target : string;
  pagesVisited : nat;
  linksFound : nat;
  okCount : nat;
  errorCount : nat;
  domainsCount : nat;
  requestsCount : nat;
  requestRows : list (Anchor * Z);
  visitedRows : list Anchor;
  linkRows : list Anchor;
  domainRows : list string
}.

(** The document that [saveReport] hands to [Bun.write]; [None] when a
    [decodeURIComponent] throws, and nothing is written. *)
Definition saveReport (G : Globals) (url : string) (links visits : JSSet.t)
  (requests : JSMap.t) (domains : JSSet.t) : option Report :=
  match map_throwing (render_request G)
          (Array_sort (compareRequests G) requests) with
  | None => None
  | Some reqRows =>
      match map_throwing (render_anchor G)
              (Array_sort defaultCompare visits) with
      | None => None
      | Some visRows =>
          match map_throwing (render_anchor G)
                  (Array_sort defaultCompare links) with
          | None => None
          | Some lnkRows =>
              Some (mkReport url
                      (List.length visits) (List.length links)
                      (List.length (okRequests requests))
                      (List.length (errorRequests requests))
                      (List.length domains)
                      (List.length requests)
                      reqRows visRows lnkRows
                      (Array_sort defaultCompare domains))
          end
      end
  end.

(** The call of [saveReport] at the end of [probe], on the collections of
    a configuration. *)
Definition probe_report (G : Globals) (url : string) (c : Config)
  : option Report :=
  saveReport G url (links c) (visits c) (requests (ledger c))
             (domains (ledger c)).

(** ** [main] *)

(** The options that [main] reads from the command line. *)
Record Argv := mkArgv {
  argv_url : string;
  argv_domain : option (list string);
  argv_showBrowser : bool;
  argv_human : bool;
  argv_maxPages : nat;
  argv_delay : Q;
  argv_networkTimeout : Q;
  argv_output : string
}.

(** The argument of [probe]. *)
Record ProbeArgs := mkProbeArgs {
  probe_url : string;
  probe_domain : list string;
  probe_headless : bool;
  probe_networkTimeout : Q;
  probe_human : bool;
  probe_maxPages : nat;
  probe_delay : Q;
  probe_outputPath : string
}.

(** The callback of [.check]: [false] where it throws. [isValidDomain]
    is the package [is-valid-domain]. *)
Definition check (P : Platform) (isValidDomain : string -> bool)
  (argv : Argv) : bool :=
  match URL_new P (argv_url argv) None with
  | None => false
  | Some _ =>
      match argv_domain argv with
      | None => true
      | Some domains => forallb isValidDomain domains
      end
  end.

(** [main] up to the call of [probe]: the arguments it passes, [None]
    when [check] or [new URL] throws. *)
Definition main (P : Platform) (isValidDomain : string -> bool)
  (argv : Argv) : option ProbeArgs :=
  if check P isValidDomain argv then
    let domain := match argv_domain argv with Some d => d | None => [] end in
    match
      (if (List.length domain =? 0)%nat then
         match URL_new P (argv_url argv) None with
         | None => None
         | Some u => Some [hostname u; "*." ++ hostname u]
         end
       else Some domain)
    with
    | None => None
    | Some domain' =>
        Some (mkProbeArgs (argv_url argv) domain'
                (negb (argv_showBrowser argv))
                (argv_networkTimeout argv * inject_Z 1000)%Q
                (argv_human argv) (argv_maxPages argv)
                (argv_delay argv * inject_Z 1000)%Q
                (argv_output argv))
    end
  else None.

(** The status that the last response for [url] with a host name of the
    domain list carried, among [evs]; [None] when there is none. *)
Fixpoint last_recorded (P : Platform) (domain : list string) (url : string)
  (evs : list (string * Z)) : option Z :=
  match evs with
  | [] => None
  | ev :: r =>
      match last_recorded P domain url r with
      | Some s => Some s
      | None =>
          if String.eqb url (fst ev) then
            match URL_new P (fst ev) None with
            | Some u =>
                if includes domain (hostname u) then Some (snd ev) else None
            | None => None
            end
          else None
      end
  end.

(** The responses delivered before step [n], oldest first. *)
Fixpoint events_before (env : Env) (n : nat) : list (string * Z) :=
  match n with
  | 0 => []
  | S k => (events_before env k ++ events env k)%list
  end.

(** The two library functions of [Globals] on URLs without a per cent
    sign and of one alphabet: decoding changes nothing there, and the
    comparison is that of the code units. *)
Definition plain_globals : Globals :=
  mkGlobals defaultCompare (fun u => Some u).

(** * Properties *)

(** ** Strings *)

Lemma append_empty_r (s : string) : s ++ "" = s.
Proof. induction s as [|c s IH]; simpl; [reflexivity | now rewrite IH]. Qed.

Lemma toLowerCase_app (a b : string) :
  toLowerCase (a ++ b) = toLowerCase a ++ toLowerCase b.
Proof.
  induction a as [|c a IH]; simpl; [reflexivity | now rewrite IH].
Qed.

(** A lower-cased string splits where its image splits. *)
Lemma toLowerCase_split (a e s : string) :
  toLowerCase s = a ++ e ->
  exists a' b', s = a' ++ b' /\ toLowerCase a' = a /\ toLowerCase b' = e.
Proof.
  revert s; induction a as [|c a IH]; intros s H.
  - exists "", s. auto.
  - destruct s as [|d s]; simpl in H; [discriminate|].
    injection H as Hc Hs. destruct (IH _ Hs) as (a' & b' & -> & Ha & Hb).
    exists (String d a'), b'. simpl. rewrite Ha, Hc. auto.
Qed.

Lemma substring_all (e : string) : substring 0 (String.length e) e = e.
Proof. induction e as [|c e IH]; simpl; [reflexivity | now rewrite IH]. Qed.

Lemma substring_skip (a e : string) (m : nat) :
  substring (String.length a) m (a ++ e) = substring 0 m e.
Proof. induction a as [|c a IH]; simpl; auto. Qed.

Lemma substring_cut (s : string) (k m : nat) :
  k + m = String.length s -> s = substring 0 k s ++ substring k m s.
Proof.
  revert k; induction s as [|c s IH]; intros k H; simpl in H.
  - destruct k; simpl in *; [subst m; reflexivity | discriminate].
  - destruct k as [|k]; simpl.
    + simpl in H. subst m. simpl. now rewrite substring_all.
    + f_equal. apply IH. lia.
Qed.

Lemma length_append (a b : string) :
  String.length (a ++ b) = String.length a + String.length b.
Proof. induction a as [|c a IH]; simpl; [reflexivity | now rewrite IH]. Qed.

Lemma endsWith_spec (s e : string) :
  endsWith s e = true <-> exists a, s = a ++ e.
Proof.
  unfold endsWith; rewrite andb_true_iff, Nat.leb_le, String.eqb_eq. split.
  - intros [Hle Hsub]. exists (substring 0 (String.length s - String.length e) s).
    pose proof (substring_cut s (String.length s - String.length e)
                  (String.length e)) as H.
    rewrite Hsub in H. apply H. lia.
  - intros [a ->]. rewrite length_append. split; [lia|].
    replace (String.length a + String.length e - String.length e)
      with (String.length a) by lia.
    rewrite substring_skip. apply substring_all.
Qed.

(** The test of [shouldSkipUrl] on one extension that is its own lower
    case is the comparison without regard to case. *)
Lemma endsWith_lower_ci (s ext : string) :
  toLowerCase ext = ext ->
  endsWith (toLowerCase s) ext = true <-> ends_with_ci s ext.
Proof.
  intros Hext. rewrite endsWith_spec. unfold ends_with_ci. split.
  - intros [a H]. destruct (toLowerCase_split _ _ _ H) as (a' & b' & Hs & _ & Hb).
    exists a', b'. rewrite Hext. auto.
  - intros (a & b & -> & Hb). exists (toLowerCase a).
    rewrite toLowerCase_app, Hb, Hext. reflexivity.
Qed.

Lemma SKIP_EXTENSIONS_lower (ext : string) :
  In ext SKIP_EXTENSIONS -> toLowerCase ext = ext.
Proof.
  assert (H : forallb (fun e => toLowerCase e =? e) SKIP_EXTENSIONS = true)
    by reflexivity.
  rewrite forallb_forall in H. intros Hin. now apply String.eqb_eq, H.
Qed.

(** ** Sets and maps *)

Lemma has_In (x : string) (s : JSSet.t) : JSSet.has x s = true <-> In x s.
Proof.
  unfold JSSet.has. rewrite existsb_exists. split.
  - intros (y & Hy & E). apply String.eqb_eq in E. now subst.
  - intros H. exists x. split; [assumption | apply String.eqb_refl].
Qed.

Lemma In_add (x y : string) (s : JSSet.t) :
  In x (JSSet.add y s) <-> x = y \/ In x s.
Proof.
  unfold JSSet.add. destruct (JSSet.has y s) eqn:E.
  - apply has_In in E. split; [auto | intros [-> | H]; assumption].
  - rewrite in_app_iff. simpl. intuition.
Qed.

Lemma incl_add (y : string) (s : JSSet.t) : incl s (JSSet.add y s).
Proof. intros x H. apply In_add. now right. Qed.

Lemma NoDup_add (y : string) (s : JSSet.t) :
  NoDup s -> NoDup (JSSet.add y s).
Proof.
  intros H. unfold JSSet.add. destruct (JSSet.has y s) eqn:E; [assumption|].
  apply NoDup_app; [assumption | repeat constructor; intros [] | ].
  intros x Hx [<- | []]. apply has_In in Hx. congruence.
Qed.

Lemma add_present (y : string) (s : JSSet.t) :
  In y s -> JSSet.add y s = s.
Proof. intros H. unfold JSSet.add. apply has_In in H. now rewrite H. Qed.

Lemma In_difference (x : string) (s o : JSSet.t) :
  In x (JSSet.difference s o) <-> In x s /\ ~ In x o.
Proof.
  unfold JSSet.difference. rewrite filter_In, negb_true_iff.
  rewrite <- has_In with (s := o). destruct (JSSet.has x o); intuition congruence.
Qed.

Lemma difference_nil (s o : JSSet.t) :
  JSSet.difference s o = [] <-> incl s o.
Proof.
  split.
  - intros H x Hx. destruct (JSSet.has x o) eqn:E; [now apply has_In|].
    assert (Hd : In x (JSSet.difference s o)).
    { apply In_difference. split; [assumption|]. rewrite <- has_In. congruence. }
    rewrite H in Hd. destruct Hd.
  - intros H. destruct (JSSet.difference s o) as [|x r] eqn:E; [reflexivity|].
    assert (Hd : In x (JSSet.difference s o)) by (rewrite E; now left).
    apply In_difference in Hd. destruct Hd as [Hs Ho]. elim Ho. now apply H.
Qed.

Lemma get_set_same (k : string) (v : Z) (m : JSMap.t) :
  JSMap.get k (JSMap.set k v m) = Some v.
Proof.
  induction m as [|[k' v'] m IH]; simpl.
  - now rewrite String.eqb_refl.
  - destruct (String.eqb k k') eqn:E; simpl; rewrite E; auto.
Qed.

Lemma get_set_other (k k' : string) (v : Z) (m : JSMap.t) :
  k' <> k -> JSMap.get k' (JSMap.set k v m) = JSMap.get k' m.
Proof.
  intros Hne. induction m as [|[k0 v0] m IH]; simpl.
  - apply String.eqb_neq in Hne. now rewrite Hne.
  - destruct (String.eqb k k0) eqn:E; simpl.
    + apply String.eqb_eq in E. subst k0.
      apply String.eqb_neq in Hne. now rewrite Hne.
    + now rewrite IH.
Qed.

Lemma keys_set (k k' : string) (v : Z) (m : JSMap.t) :
  In k' (JSMap.keys (JSMap.set k v m)) <-> k' = k \/ In k' (JSMap.keys m).
Proof.
  unfold JSMap.keys. induction m as [|[k0 v0] m IH]; simpl.
  - intuition.
  - destruct (String.eqb k k0) eqn:E; simpl.
    + apply String.eqb_eq in E. subst k0. intuition.
    + rewrite IH. intuition.
Qed.

(** [set] on a key already present changes no key and no position. *)
Lemma keys_set_present (k : string) (v : Z) (m : JSMap.t) :
  In k (JSMap.keys m) -> JSMap.keys (JSMap.set k v m) = JSMap.keys m.
Proof.
  unfold JSMap.keys. induction m as [|[k0 v0] m IH]; simpl; [intros []|].
  destruct (String.eqb k k0) eqn:E; simpl; [reflexivity|].
  intros [H | H]; [subst; now rewrite String.eqb_refl in E | now rewrite IH].
Qed.

(** ** The extension filter *)

Lemma Some_true_iff (a : bool) : Some a = Some true <-> a = true.
Proof. split; [intros H; now injection H | intros ->; reflexivity]. Qed.

Lemma shouldSkipUrl_true (P : Platform) (url : string) (u : URL) :
  URL_new P url None = Some u ->
  shouldSkipUrl P url = Some true <->
  exists ext, In ext SKIP_EXTENSIONS /\ ends_with_ci (pathname u) ext.
Proof.
  intros Hu. unfold shouldSkipUrl. rewrite Hu, Some_true_iff, existsb_exists.
  split; intros (ext & Hin & Hend); exists ext; (split; [assumption|]);
    now apply endsWith_lower_ci; [apply SKIP_EXTENSIONS_lower|].
Qed.

(** C6. For a URL that [new URL] accepts, [shouldSkipUrl] answers true
    exactly when the path, compared without regard to case, ends with one
    of [SKIP_EXTENSIONS], and false otherwise; the answer depends on the
    path alone, so the query string and the fragment play no part; a URL
    whose path is [/report.pdf] (as for [https://x.com/report.pdf], with
    or without [?x=1]) is skipped, one whose path is [/page] is not. *)
Theorem shouldSkipUrl_extension (P : Platform) (url : string) (u : URL)
  (Hvalid : URL_new P url None = Some u) :
  (shouldSkipUrl P url = Some true <->
     exists ext, In ext SKIP_EXTENSIONS /\ ends_with_ci (pathname u) ext)
  /\ (shouldSkipUrl P url = Some false <->
     ~ exists ext, In ext SKIP_EXTENSIONS /\ ends_with_ci (pathname u) ext)
  /\ (forall url' u', URL_new P url' None = Some u' ->
        pathname u' = pathname u ->
        shouldSkipUrl P url' = shouldSkipUrl P url)
  /\ (pathname u = "/report.pdf" -> shouldSkipUrl P url = Some true)
  /\ (pathname u = "/page" -> shouldSkipUrl P url = Some false).
Proof.
  pose proof (shouldSkipUrl_true P url u Hvalid) as Ht.
  assert (Hb : exists b, shouldSkipUrl P url = Some b).
  { unfold shouldSkipUrl. rewrite Hvalid. eauto. }
  destruct Hb as [b Hb]. repeat split.
  - apply Ht.
  - apply Ht.
  - intros Hf Hex. apply Ht in Hex. congruence.
  - intros Hn. destruct b; [elim Hn; now apply Ht | assumption].
  - intros url' u' Hu' Hp. unfold shouldSkipUrl.
    now rewrite Hu', Hvalid, Hp.
  - intros Hp. unfold shouldSkipUrl. rewrite Hvalid, Hp. reflexivity.
  - intros Hp. unfold shouldSkipUrl. rewrite Hvalid, Hp. reflexivity.
Qed.

(** The three URLs of the specification, on the reference platform. *)
Lemma shouldSkipUrl_extension_witness :
  shouldSkipUrl Reference.platform "https://x.com/report.pdf" = Some true
  /\ shouldSkipUrl Reference.platform "https://x.com/report.pdf?x=1"
     = Some true
  /\ shouldSkipUrl Reference.platform "https://x.com/page" = Some false.
Proof.
  split; [|split].
  - eapply (shouldSkipUrl_extension Reference.platform
              "https://x.com/report.pdf"); reflexivity.
  - eapply (shouldSkipUrl_extension Reference.platform
              "https://x.com/report.pdf?x=1"); reflexivity.
  - eapply (shouldSkipUrl_extension Reference.platform
              "https://x.com/page"); reflexivity.
Defined.

(** ** Scope patterns *)

Lemma isInScope_exists (P : Platform) (h : string) (domain : list string) :
  isInScope P h domain = true <->
  exists d, In d domain /\ isMatch P h d = true.
Proof. unfold isInScope. apply existsb_exists. Qed.

Lemma glob_star_eq (p s : string) :
  glob (String "*"%char p) s
  = glob p s
    || match s with
       | EmptyString => false
       | String _ r => glob (String "*"%char p) r
       end.
Proof. destruct s; reflexivity. Qed.

Lemma glob_char_eq (c : ascii) (p s : string) :
  c <> "*"%char ->
  glob (String c p) s
  = match s with
    | EmptyString => false
    | String d r => Ascii.eqb c d && glob p r
    end.
Proof.
  intros Hc.
  destruct c as [[] [] [] [] [] [] [] []]; try reflexivity; congruence.
Qed.

Lemma glob_matches_star_inv (p r : string) :
  glob_matches (String "*"%char p) r ->
  exists s t, r = s ++ t /\ glob_matches p t.
Proof.
  intros H. inversion H; subst; [congruence | eauto].
Qed.

Lemma glob_sound (p s : string) : glob p s = true -> glob_matches p s.
Proof.
  revert s; induction p as [|c p IH]; intros s H.
  - simpl in H. apply String.eqb_eq in H. subst. constructor.
  - destruct (Ascii.eqb_spec c "*"%char) as [-> | Hc].
    + induction s as [|d s IHs]; rewrite glob_star_eq in H;
        apply orb_true_iff in H; destruct H as [H | H]; try discriminate.
      * apply (glob_star p "" ""). now apply IH.
      * apply (glob_star p "" (String d s)). now apply IH.
      * destruct (glob_matches_star_inv _ _ (IHs H)) as (s0 & t & -> & Ht).
        apply (glob_star p (String d s0) t Ht).
    + rewrite glob_char_eq in H by assumption. destruct s as [|d s]; [discriminate|].
      apply andb_true_iff in H. destruct H as [E H].
      apply Ascii.eqb_eq in E. subst d. constructor; auto.
Qed.

Lemma glob_complete (p s : string) : glob_matches p s -> glob p s = true.
Proof.
  induction 1 as [|c p s Hc _ IH|p s t _ IH].
  - reflexivity.
  - rewrite glob_char_eq by assumption. now rewrite Ascii.eqb_refl, IH.
  - induction s as [|d s IHs]; cbn [append]; rewrite glob_star_eq.
    + now rewrite IH.
    + rewrite IHs. apply orb_true_r.
Qed.

Lemma glob_starless (p h : string) :
  starless p = true -> glob p h = true <-> h = p.
Proof.
  revert h; induction p as [|c p IH]; intros h Hs; simpl in Hs.
  - simpl. apply String.eqb_eq.
  - apply andb_true_iff in Hs. destruct Hs as [Hc Hs].
    apply negb_true_iff, Ascii.eqb_neq in Hc.
    rewrite glob_char_eq by assumption. destruct h as [|d h].
    + split; discriminate.
    + rewrite andb_true_iff, Ascii.eqb_eq, (IH h Hs). split.
      * now intros [-> ->].
      * intros E. injection E as -> ->. auto.
Qed.

(** C5. The scope test holds when some pattern of the list matches the
    host name. With the glob matcher: a pattern without [*] matches the
    equal host name and no other; a pattern with [*] matches as a shell
    glob, [*] standing for any run of characters, so that [*.example.com]
    covers one level of subdomains ([a.example.com]) and several
    ([a.b.example.com]) but not [example.com] itself, which the pattern
    [example.com] covers. *)
Theorem isInScope_glob (P : Platform) (h p : string)
  (domain : list string) (Hexact : starless p = true) :
  (isInScope P h domain = true <->
     exists d, In d domain /\ isMatch P h d = true)
  /\ (isMatch Reference.platform h p = true <-> h = p)
  /\ (forall q s, isMatch Reference.platform s q = true <-> glob_matches q s)
  /\ isInScope Reference.platform "a.example.com" ["*.example.com"] = true
  /\ isInScope Reference.platform "a.b.example.com" ["*.example.com"] = true
  /\ isInScope Reference.platform "example.com" ["*.example.com"] = false
  /\ isInScope Reference.platform "example.com" ["example.com"] = true.
Proof.
  split; [apply isInScope_exists|].
  split; [now apply glob_starless|].
  split; [|repeat split].
  intros q s. split; [apply glob_sound | apply glob_complete].
Qed.

Lemma isInScope_glob_witness :
  starless "example.com" = true
  /\ (isMatch Reference.platform "example.org" "example.com" = true <->
      "example.org" = "example.com").
Proof.
  split; [reflexivity|].
  exact (proj1 (proj2 (isInScope_glob Reference.platform "example.org"
                         "example.com" [] eq_refl))).
Defined.

(** ** The anchors loop *)

(** After [u.hash = ""] the getter [hash] is empty and the serialization
    is that of the other components. *)
Lemma clear_hash_hash (u : URL) :
  hash (clear_hash u) = ""
  /\ href (clear_hash u)
     = scheme u ++ ":" ++ authority (clear_hash u)
       ++ (match host u with
           | None => if prefix "//" (path u) then "/." else ""
           | Some _ => ""
           end)
       ++ path u
       ++ match query u with Some q => "?" ++ q | None => "" end.
Proof.
  split; [reflexivity|]. unfold href. simpl.
  now rewrite append_empty_r.
Qed.

Lemma accept_accepted (P : Platform) (url : string) (domain : list string)
  (h l : string) :
  accept P url domain h = Some l <-> accepted P url domain h l.
Proof.
  unfold accept, accepted. destruct (URL_new P h (Some url)) as [u|].
  - destruct (isInScope P (hostname (clear_hash u)) domain) eqn:Hs.
    + destruct (shouldSkipUrl P (href (clear_hash u))) as [[|]|] eqn:Hk.
      * split; [discriminate|]. intros (u' & E & -> & _ & Hk').
        injection E as <-. congruence.
      * split.
        -- intros E. injection E as <-. exists u. repeat split; auto.
           now apply isInScope_exists.
        -- intros (u' & E & -> & _). injection E as <-. reflexivity.
      * split; [discriminate|]. intros (u' & E & -> & _ & Hk').
        injection E as <-. congruence.
    + split; [discriminate|]. intros (u' & E & _ & Hd & _).
      injection E as <-. apply isInScope_exists in Hd. congruence.
  - split; [discriminate|]. intros (u' & E & _). discriminate.
Qed.

Lemma accepted_is_Link (P : Platform) (url : string) (domain : list string)
  (h l : string) :
  round_trips P -> accepted P url domain h l -> is_Link P domain l.
Proof.
  intros Hround (u & Hu & -> & Hd & Hk).
  exists (clear_hash u). split; [exact (Hround _ _ _ Hu)|].
  repeat split; auto. now apply isInScope_exists.
Qed.

Lemma anchor_step_grows (P : Platform) (url : string) (domain : list string)
  (a : option string) (links : JSSet.t) :
  exists added, anchor_step P url domain a links = (links ++ added)%list.
Proof.
  unfold anchor_step. destruct a as [h|]; [|exists []; now rewrite app_nil_r].
  destruct (h =? ""); [exists []; now rewrite app_nil_r|].
  destruct (accept P url domain h) as [l|]; [|exists []; now rewrite app_nil_r].
  unfold JSSet.add. destruct (JSSet.has l links); eauto.
  exists []; now rewrite app_nil_r.
Qed.

Lemma anchor_step_In (P : Platform) (url : string) (domain : list string)
  (h : string) (links : JSSet.t) (x : string) :
  h <> "" ->
  In x (anchor_step P url domain (Some h) links) <->
  In x links \/ accepted P url domain h x.
Proof.
  intros Hne. unfold anchor_step. apply String.eqb_neq in Hne. rewrite Hne.
  rewrite <- accept_accepted. destruct (accept P url domain h) as [l|].
  - rewrite In_add. split; intros [H | H]; auto.
    + subst. auto.
    + injection H as ->. auto.
  - split; [auto | intros [H | H]; [assumption | discriminate]].
Qed.

(** C1, amended. For every non-empty [href] the anchors loop does what
    the composition says: the links after the turn are the links before
    it, plus the link obtained by resolving [href] against the base and
    clearing the fragment when its host name matches a pattern of the
    scope and [shouldSkipUrl] answers false for it; the insertion keeps
    the set free of duplicates; when [new URL] throws, the turn leaves
    [links], [visits], the ledger and the navigation log as they were
    and the loop goes on with the remaining anchors. *)
Theorem anchor_step_composition (P : Platform) (env : Env) (url : string)
  (domain : list string) (maxPages : nat) (h : string) (Hne : h <> "") :
  (forall links x,
     In x (anchor_step P url domain (Some h) links) <->
     In x links \/ accepted P url domain h x)
  /\ (forall links, NoDup links ->
        NoDup (anchor_step P url domain (Some h) links))
  /\ (forall c rest,
        pc c = InAnchors (Some h :: rest) ->
        URL_new P h (Some url) = None ->
        step P env url domain maxPages c
        = mkConfig (links c) (visits c) (ledger c) (nextUrl c) (i c)
                   (InAnchors rest) (navigations c)).
Proof.
  split; [|split].
  - intros links x. now apply anchor_step_In.
  - intros links Hnd. unfold anchor_step. destruct (h =? ""); [assumption|].
    destruct (accept P url domain h); [now apply NoDup_add | assumption].
  - intros c rest Hpc Hnone. unfold step. rewrite Hpc. unfold anchor_step, accept.
    rewrite Hnone. now destruct (h =? "").
Qed.

(** C1 as stated fails on the empty [href]: [new URL("", base)] resolves
    to the base and the composition accepts it, while [if (href)] keeps
    the loop from looking at it. *)
Lemma empty_href_not_accepted :
  ~ (forall P url domain h links x,
       In x (anchor_step P url domain (Some h) links) <->
       In x links \/ accepted P url domain h x).
Proof.
  intros H.
  specialize (H Reference.platform "https://example.com/"
                (default_domain "example.com") "" []
                "https://example.com/").
  destruct H as [_ H]. apply H. right.
  eexists. split; [reflexivity|]. split; [reflexivity|].
  split; [|reflexivity].
  exists "example.com". split; [now left | reflexivity].
Qed.

Lemma anchor_step_composition_witness :
  "/a#top" <> ""
  /\ (forall links x,
        In x (anchor_step Reference.platform "https://example.com/"
                (default_domain "example.com") (Some "/a#top") links) <->
        In x links
        \/ accepted Reference.platform "https://example.com/"
             (default_domain "example.com") "/a#top" x).
Proof.
  split; [discriminate|].
  apply (anchor_step_composition Reference.platform
           (constant_env (mkPage None [])) "https://example.com/"
           (default_domain "example.com") 1 "/a#top").
  discriminate.
Defined.

(** ** The response observer and the ledger *)

Lemma includes_In (domain : list string) (x : string) :
  includes domain x = true <-> In x domain.
Proof. apply (has_In x domain). Qed.

(** A response whose URL [new URL] rejects leaves no trace. *)
Lemma record_unparsed (P : Platform) (domain : list string)
  (ev : string * Z) (l : Ledger) :
  URL_new P (fst ev) None = None -> record P domain ev l = l.
Proof. intros H. unfold record. now rewrite H. Qed.

Lemma record_in_domain (P : Platform) (domain : list string)
  (ev : string * Z) (l : Ledger) :
  ledger_in_domain P domain l ->
  ledger_in_domain P domain (record P domain ev l).
Proof.
  intros Hl. unfold record. destruct (URL_new P (fst ev) None) as [u|] eqn:Hu;
    [|assumption].
  destruct (includes domain (hostname u)) eqn:Hi; intros k Hk; simpl in Hk.
  - apply keys_set in Hk. destruct Hk as [-> | Hk]; [|now apply Hl].
    exists u. split; [assumption | now apply includes_In].
  - now apply Hl.
Qed.

Lemma observe_in_domain (P : Platform) (domain : list string)
  (evs : list (string * Z)) (l : Ledger) :
  ledger_in_domain P domain l ->
  ledger_in_domain P domain (observe P domain evs l).
Proof.
  unfold observe. revert l. induction evs as [|ev evs IH]; intros l Hl; simpl.
  - assumption.
  - apply IH. now apply record_in_domain.
Qed.

(** ** The random choice of the next page *)

Lemma Qfloor_eq_iff (x : Q) (k : Z) :
  Qfloor x = k <-> (inject_Z k <= x)%Q /\ (x < inject_Z (k + 1))%Q.
Proof.
  split.
  - intros <-. split; [apply Qfloor_le | apply Qlt_floor].
  - intros [H1 H2]. apply Qfloor_resp_le in H1. rewrite Qfloor_Z in H1.
    assert (H3 : (Qfloor x < k + 1)%Z).
    { rewrite Zlt_Qlt. eapply Qle_lt_trans; [apply Qfloor_le | exact H2]. }
    lia.
Qed.

Lemma scaled_draw_range (r : Draw) (n : nat) :
  0 < n ->
  (0 <= value r * inject_Z (Z.of_nat n))%Q
  /\ (value r * inject_Z (Z.of_nat n) < inject_Z (Z.of_nat n))%Q.
Proof.
  intros Hn. destruct (value_range r) as [H0 H1]. split.
  - apply Qmult_le_0_compat; [assumption|].
    change 0%Q with (inject_Z 0). rewrite <- Zle_Qle. lia.
  - rewrite <- (Qmult_1_l (inject_Z (Z.of_nat n))) at 2.
    apply Qmult_lt_compat_r; [|assumption].
    change 0%Q with (inject_Z 0). rewrite <- Zlt_Qlt. lia.
Qed.

Lemma Qfloor_scaled_nonneg (r : Draw) (n : nat) :
  0 < n -> (0 <= Qfloor (value r * inject_Z (Z.of_nat n)))%Z.
Proof.
  intros Hn. destruct (scaled_draw_range r n Hn) as [H0 _].
  apply Qfloor_resp_le in H0. exact H0.
Qed.

Lemma random_index_lt (r : Draw) (n : nat) : 0 < n -> random_index r n < n.
Proof.
  intros Hn. unfold random_index.
  pose proof (Qfloor_scaled_nonneg r n Hn) as H0.
  destruct (scaled_draw_range r n Hn) as [_ H1].
  assert (H2 : (Qfloor (value r * inject_Z (Z.of_nat n)) < Z.of_nat n)%Z).
  { rewrite Zlt_Qlt. eapply Qle_lt_trans; [apply Qfloor_le | exact H1]. }
  lia.
Qed.

(** The draws that select index [k] among [n] are those of the interval
    from [k/n] to [(k+1)/n], the upper end left out. *)
Lemma random_index_interval (r : Draw) (n k : nat) :
  0 < n ->
  random_index r n = k <->
  (Z.of_nat k # Pos.of_nat n <= value r)%Q
  /\ (value r < Z.of_nat (S k) # Pos.of_nat n)%Q.
Proof.
  intros Hn. unfold random_index.
  pose proof (Qfloor_scaled_nonneg r n Hn) as H0.
  assert (Hpos : Z.pos (Pos.of_nat n) = Z.of_nat n).
  { destruct n as [|m]; [lia|]. rewrite <- Pos.of_nat_succ. lia. }
  transitivity (Qfloor (value r * inject_Z (Z.of_nat n)) = Z.of_nat k);
    [lia|].
  rewrite Qfloor_eq_iff. destruct (value r) as [a b].
  unfold Qle, Qlt, Qmult, inject_Z. simpl Qnum. simpl Qden.
  rewrite Hpos, Pos.mul_1_r. split; intros [H1 H2]; split; nia.
Qed.

Lemma nextUnvisited_None (links visits : JSSet.t) (r : Draw) :
  nextUnvisited links visits r = None <->
  JSSet.difference links visits = [].
Proof.
  unfold nextUnvisited.
  destruct (JSSet.difference links visits) as [|x t]; simpl; [tauto|].
  split; discriminate.
Qed.

Lemma nextUnvisited_Some (links visits : JSSet.t) (r : Draw) (x : string) :
  nextUnvisited links visits r = Some x ->
  In x (JSSet.difference links visits).
Proof.
  unfold nextUnvisited.
  destruct (JSSet.difference links visits) as [|y t] eqn:E; [discriminate|].
  rewrite <- E. intros H. replace (_ =? 0)%nat with false in H
    by (symmetry; apply Nat.eqb_neq; rewrite E; discriminate).
  injection H as <-. apply nth_In. apply random_index_lt. rewrite E. simpl. lia.
Qed.

Lemma nextUnvisited_index (links visits : JSSet.t) (r : Draw) :
  JSSet.difference links visits <> [] ->
  nextUnvisited links visits r
  = Some (nth (random_index r (List.length (JSSet.difference links visits)))
              (JSSet.difference links visits) "").
Proof.
  intros Hne. unfold nextUnvisited.
  destruct (JSSet.difference links visits) as [|y t]; [congruence|reflexivity].
Qed.

(** Every position of the unvisited list has a draw that selects it. *)
Lemma random_index_onto (n k : nat) :
  k < n -> exists r, random_index r n = k.
Proof.
  intros Hk.
  assert (Hpos : Z.pos (Pos.of_nat n) = Z.of_nat n).
  { destruct n as [|m]; [lia|]. rewrite <- Pos.of_nat_succ. lia. }
  assert (Hr : (0 <= Z.of_nat k # Pos.of_nat n)%Q
               /\ (Z.of_nat k # Pos.of_nat n < 1)%Q).
  { unfold Qle, Qlt. simpl. rewrite Hpos. lia. }
  exists (mkDraw (Z.of_nat k # Pos.of_nat n) Hr).
  apply random_index_interval; [lia|]. simpl value.
  unfold Qle, Qlt. simpl. rewrite Hpos. lia.
Qed.

(** ** The crawl loop *)

Lemma anchor_step_cases (P : Platform) (url : string) (domain : list string)
  (a : option string) (links : JSSet.t) :
  anchor_step P url domain a links = links
  \/ exists h l, a = Some h /\ h <> "" /\ accept P url domain h = Some l
                 /\ anchor_step P url domain a links = JSSet.add l links.
Proof.
  unfold anchor_step. destruct a as [h|]; [|now left].
  destruct (h =? "") eqn:E; [now left|].
  destruct (accept P url domain h) as [l|] eqn:Ha; [|now left].
  right. exists h, l. apply String.eqb_neq in E. auto.
Qed.

Lemma add_grows (x : string) (s : JSSet.t) :
  exists added, JSSet.add x s = (s ++ added)%list.
Proof.
  unfold JSSet.add. destruct (JSSet.has x s); eauto.
  exists []. now rewrite app_nil_r.
Qed.

Section Crawl.

Variable P : Platform.
Variable env : Env.
Variable url : string.
Variable domain : list string.
Variable maxPages : nat.

Local Abbreviation step' := (step P env url domain maxPages).
Local Abbreviation run' := (run P env url domain maxPages).
Local Abbreviation deliver' := (deliver P domain).

Lemma run_S (n : nat) : run' (S n) = step' (deliver' (events env n) (run' n)).
Proof. reflexivity. Qed.

Lemma ledger_step (c : Config) : ledger (step' c) = ledger c.
Proof.
  unfold step. destruct (pc c) as [|[|a rest]|e].
  - now destruct (i c <? maxPages)%nat.
  - now destruct (nextUnvisited _ _ _).
  - reflexivity.
  - reflexivity.
Qed.

Lemma ledger_run (n : nat) : ledger_in_domain P domain (ledger (run' n)).
Proof.
  induction n as [|n IH].
  - intros k [].
  - rewrite run_S, ledger_step. simpl. now apply observe_in_domain.
Qed.

Lemma frontier_inv_step (c : Config) :
  frontier_inv P url domain c -> frontier_inv P url domain (step' c).
Proof.
  intros (Hv & Hn & Hdl & Hdv & Hl). unfold step.
  destruct (pc c) as [|[|a rest]|e].
  - destruct (i c <? maxPages)%nat; unfold frontier_inv; simpl;
      repeat split; auto.
    + intros x Hx. apply In_add in Hx. destruct Hx as [-> | Hx].
      * destruct Hn as [-> | Hn]; [now left | now right].
      * now apply Hv.
    + now apply NoDup_add.
  - destruct (nextUnvisited (links c) (visits c) (random env (i c)))
      as [next|] eqn:E; unfold frontier_inv; simpl; repeat split; auto.
    right. apply nextUnvisited_Some, In_difference in E. tauto.
  - unfold frontier_inv; simpl.
    destruct (anchor_step_cases P url domain a (links c))
      as [-> | (h & l & _ & _ & Ha & ->)]; repeat split; auto.
    + intros x Hx. destruct (Hv x Hx) as [<- | Hx']; [now left|].
      right. apply In_add. now right.
    + destruct Hn as [-> | Hn]; [now left|]. right. apply In_add. now right.
    + now apply NoDup_add.
    + intros x Hx. apply In_add in Hx. destruct Hx as [-> | Hx]; [|now apply Hl].
      exists h. now apply accept_accepted.
  - unfold frontier_inv. auto.
Qed.

Lemma nav_inv_step (c : Config) :
  nav_inv maxPages c -> nav_inv maxPages (step' c).
Proof.
  unfold nav_inv, step. destruct (pc c) as [|[|a rest]|e] eqn:Hpc.
  - intros [Hlen Hle]. destruct (i c <? maxPages)%nat eqn:E; simpl.
    + apply Nat.ltb_lt in E. rewrite length_app. simpl. lia.
    + apply Nat.ltb_ge in E. lia.
  - intros [Hlen Hlt].
    destruct (nextUnvisited (links c) (visits c) (random env (i c)))
      as [next|] eqn:E; simpl.
    + lia.
    + apply nextUnvisited_None in E. auto.
  - simpl. auto.
  - rewrite Hpc. auto.
Qed.

Lemma run_inv (n : nat) :
  frontier_inv P url domain (run' n) /\ nav_inv maxPages (run' n).
Proof.
  induction n as [|n [IHf IHn]].
  - split.
    + unfold frontier_inv; simpl. repeat split; auto using NoDup_nil.
      * intros x [].
      * intros x [].
    + unfold nav_inv; simpl. lia.
  - rewrite run_S. split.
    + apply frontier_inv_step. exact IHf.
    + apply nav_inv_step. exact IHn.
Qed.

Lemma step_grows (c : Config) :
  exists la va,
    links (step' c) = (links c ++ la)%list
    /\ visits (step' c) = (visits c ++ va)%list.
Proof.
  unfold step. destruct (pc c) as [|[|a rest]|e].
  - destruct (i c <? maxPages)%nat; simpl.
    + destruct (add_grows (nextUrl c) (visits c)) as [va ->].
      exists [], va. now rewrite app_nil_r.
    + exists [], []. now rewrite !app_nil_r.
  - destruct (nextUnvisited _ _ _); simpl; exists [], [];
      now rewrite !app_nil_r.
  - simpl. destruct (anchor_step_grows P url domain a (links c)) as [la ->].
    exists la, []. now rewrite app_nil_r.
  - exists [], []. now rewrite !app_nil_r.
Qed.

Lemma run_grows (n d : nat) :
  exists la va,
    links (run' (n + d)) = (links (run' n) ++ la)%list
    /\ visits (run' (n + d)) = (visits (run' n) ++ va)%list.
Proof.
  induction d as [|d (la & va & Hl & Hv)].
  - rewrite Nat.add_0_r. exists [], []. now rewrite !app_nil_r.
  - rewrite Nat.add_succ_r, run_S.
    destruct (step_grows (deliver' (events env (n + d)) (run' (n + d))))
      as (la' & va' & Hl' & Hv').
    simpl in Hl', Hv'. exists (la ++ la')%list, (va ++ va')%list.
    rewrite Hl', Hv', Hl, Hv, !app_assoc. auto.
Qed.

(** From inside the anchors loop to its end: the remaining anchors are
    folded into [links], nothing else of the frontier moves. *)
Lemma anchors_phase (rest : list (option string)) :
  forall n, pc (run' n) = InAnchors rest ->
    pc (run' (n + List.length rest)) = InAnchors []
    /\ links (run' (n + List.length rest))
       = extract P url domain rest (links (run' n))
    /\ visits (run' (n + List.length rest)) = visits (run' n)
    /\ nextUrl (run' (n + List.length rest)) = nextUrl (run' n)
    /\ i (run' (n + List.length rest)) = i (run' n)
    /\ navigations (run' (n + List.length rest)) = navigations (run' n).
Proof.
  induction rest as [|a rest IH]; intros n Hpc; simpl List.length.
  - rewrite Nat.add_0_r. repeat split; auto.
  - assert (Hs : run' (S n)
                 = mkConfig (anchor_step P url domain a (links (run' n)))
                     (visits (run' n))
                     (observe P domain (events env n) (ledger (run' n)))
                     (nextUrl (run' n)) (i (run' n)) (InAnchors rest)
                     (navigations (run' n))).
    { rewrite run_S. unfold step. simpl. now rewrite Hpc. }
    replace (n + S (List.length rest)) with (S n + List.length rest) by lia.
    destruct (IH (S n)) as (H1 & H2 & H3 & H4 & H5 & H6);
      [now rewrite Hs|].
    rewrite H1, H2, H3, H4, H5, H6, Hs. simpl. repeat split; auto.
Qed.

(** One step from the loop head, inside the budget: the target is marked
    visited and navigated to, whatever [goto] answers. *)
Lemma head_step (n : nat) :
  pc (run' n) = AtHead -> i (run' n) < maxPages ->
  run' (S n)
  = mkConfig (links (run' n))
      (JSSet.add (nextUrl (run' n)) (visits (run' n)))
      (observe P domain (events env n) (ledger (run' n)))
      (nextUrl (run' n)) (i (run' n))
      (InAnchors (anchors (driver env (i (run' n)) (nextUrl (run' n)))))
      (navigations (run' n) ++ [nextUrl (run' n)])%list.
Proof.
  intros Hpc Hi. rewrite run_S. unfold step. simpl. rewrite Hpc.
  apply Nat.ltb_lt in Hi. now rewrite Hi.
Qed.

(** One step from the end of the anchors loop. *)
Lemma select_step (n : nat) :
  pc (run' n) = InAnchors [] ->
  match nextUnvisited (links (run' n)) (visits (run' n))
          (random env (i (run' n))) with
  | None =>
      pc (run' (S n)) = Exited Exhausted /\ i (run' (S n)) = i (run' n)
      /\ nextUrl (run' (S n)) = nextUrl (run' n)
  | Some next =>
      pc (run' (S n)) = AtHead /\ i (run' (S n)) = S (i (run' n))
      /\ nextUrl (run' (S n)) = next
  end
  /\ links (run' (S n)) = links (run' n)
  /\ visits (run' (S n)) = visits (run' n)
  /\ navigations (run' (S n)) = navigations (run' n).
Proof.
  intros Hpc. rewrite run_S. unfold step. simpl. rewrite Hpc.
  destruct (nextUnvisited _ _ _); simpl; auto.
Qed.

Lemma exited_stable (n : nat) (e : Exit) :
  pc (run' n) = Exited e ->
  forall d,
    pc (run' (n + d)) = Exited e
    /\ links (run' (n + d)) = links (run' n)
    /\ visits (run' (n + d)) = visits (run' n)
    /\ navigations (run' (n + d)) = navigations (run' n).
Proof.
  intros Hpc d. induction d as [|d (H1 & H2 & H3 & H4)].
  - rewrite Nat.add_0_r. auto.
  - rewrite Nat.add_succ_r, run_S. unfold step. simpl. rewrite H1. simpl. auto.
Qed.

Lemma head_terminates (d : nat) :
  forall n, pc (run' n) = AtHead -> maxPages - i (run' n) <= d ->
    exists m e, pc (run' m) = Exited e.
Proof.
  induction d as [|d IH]; intros n Hpc Hd.
  - exists (S n), PageBudgetReached. rewrite run_S. unfold step. simpl.
    rewrite Hpc. replace (_ <? _)%nat with false
      by (symmetry; apply Nat.ltb_ge; lia). reflexivity.
  - destruct (Nat.lt_ge_cases (i (run' n)) maxPages) as [Hi | Hi].
    + pose proof (head_step n Hpc Hi) as Hs.
      set (rest := anchors (driver env (i (run' n)) (nextUrl (run' n)))) in *.
      destruct (anchors_phase rest (S n)) as (H1 & _ & _ & _ & H5 & _);
        [now rewrite Hs|].
      pose proof (select_step _ H1) as (Hsel & _).
      destruct (nextUnvisited _ _ _) as [next|].
      * destruct Hsel as (Hp & Hi' & _). apply (IH _ Hp).
        rewrite Hi', H5, Hs. simpl. lia.
      * destruct Hsel as (Hp & _). eauto.
    + exists (S n), PageBudgetReached. rewrite run_S. unfold step. simpl.
      rewrite Hpc. replace (_ <? _)%nat with false
        by (symmetry; apply Nat.ltb_ge; lia). reflexivity.
Qed.

Lemma run_terminates : exists m e, pc (run' m) = Exited e.
Proof. apply (head_terminates maxPages 0); [reflexivity | simpl; lia]. Qed.

End Crawl.

(** ** The page budget and the end of the loop *)

(** C2, amended. The loop calls [page.goto] at most [maxPages] times and
    it stops: by [break] at the end of the first iteration that leaves
    [links.difference(visits)] empty, or by the test [i < maxPages] after
    [maxPages] iterations. After the stop the navigation log no longer
    moves. The count stays strictly below [maxPages] exactly when the
    [break] comes at the end of an iteration before the [maxPages]-th;
    a [break] at the end of the [maxPages]-th iteration leaves the count
    at [maxPages]. *)
Theorem crawl_navigation_budget (P : Platform) (env : Env) (url : string)
  (domain : list string) (maxPages : nat) :
  let run' := run P env url domain maxPages in
  (forall n, List.length (navigations (run' n)) <= maxPages)
  /\ (exists n e, pc (run' n) = Exited e)
  /\ (forall n,
        pc (run' n) = InAnchors [] ->
        JSSet.difference (links (run' n)) (visits (run' n)) = [] ->
        pc (run' (S n)) = Exited Exhausted)
  /\ (forall n e,
        pc (run' n) = Exited e ->
        (forall d, navigations (run' (n + d)) = navigations (run' n))
        /\ (List.length (navigations (run' n)) < maxPages <->
            e = Exhausted /\ S (i (run' n)) < maxPages)
        /\ (e = Exhausted ->
            JSSet.difference (links (run' n)) (visits (run' n)) = []
            /\ List.length (navigations (run' n)) = S (i (run' n)))
        /\ (e = PageBudgetReached ->
            List.length (navigations (run' n)) = maxPages)).
Proof.
  intros run'. split; [|split; [|split]].
  - intros n. destruct (run_inv P env url domain maxPages n) as [_ Hn].
    fold (run' n) in Hn. unfold nav_inv in Hn.
    destruct (pc (run' n)) as [| |[|]]; lia.
  - apply run_terminates.
  - intros n Hpc Hd.
    pose proof (select_step P env url domain maxPages n Hpc) as [Hsel _].
    fold run' in Hsel.
    apply (nextUnvisited_None _ _ (random env (i (run' n)))) in Hd.
    rewrite Hd in Hsel. tauto.
  - intros n e Hpc. destruct (run_inv P env url domain maxPages n) as [_ Hn].
    fold (run' n) in Hn. unfold nav_inv in Hn. rewrite Hpc in Hn.
    split; [|split; [|split]].
    + intros d. now apply (exited_stable P env url domain maxPages n e Hpc d).
    + destruct e; split.
      * intros H. split; [reflexivity | lia].
      * intros [_ H]. lia.
      * intros H. lia.
      * intros [H _]. discriminate.
    + intros ->. tauto.
    + intros ->. tauto.
Qed.

Lemma crawl_navigation_budget_witness :
  let run' := run Reference.platform (constant_env (mkPage (Some 200%Z) []))
                "https://example.com/" (default_domain "example.com") 3 in
  pc (run' 2) = Exited Exhausted
  /\ (List.length (navigations (run' 2)) < 3 <->
      Exhausted = Exhausted /\ S (i (run' 2)) < 3).
Proof.
  intros run'. split; [reflexivity|].
  apply (crawl_navigation_budget Reference.platform
           (constant_env (mkPage (Some 200%Z) [])) "https://example.com/"
           (default_domain "example.com") 3).
  reflexivity.
Defined.

(** C2 as stated fails: with a budget of one page and a seed page without
    anchors, the frontier is empty at the end of the first iteration, and
    the loop has navigated once, which is not strictly fewer than one. *)
Lemma exhaustion_at_last_page :
  ~ (forall P env url domain maxPages n e,
       pc (run P env url domain maxPages n) = Exited e ->
       (List.length (navigations (run P env url domain maxPages n))
        < maxPages <->
        exists k,
          pc (run P env url domain maxPages k) = InAnchors []
          /\ JSSet.difference (links (run P env url domain maxPages k))
                              (visits (run P env url domain maxPages k))
             = [])).
Proof.
  intros H.
  specialize (H Reference.platform (constant_env (mkPage (Some 200%Z) []))
                "https://example.com/" (default_domain "example.com")
                1 2 Exhausted eq_refl).
  destruct H as [_ H].
  assert (Hlt : 1 < 1).
  { apply H. exists 1. split; reflexivity. }
  lia.
Qed.

(** ** The reference platform and the round trip *)

Lemma append_assoc (a b c : string) : (a ++ b) ++ c = a ++ (b ++ c).
Proof. induction a as [|x a IH]; simpl; [reflexivity | now rewrite IH]. Qed.

Lemma has_char_app (c : ascii) (a b : string) :
  has_char c (a ++ b) = has_char c a || has_char c b.
Proof.
  induction a as [|d a IH]; simpl; [reflexivity|].
  now rewrite IH, orb_assoc.
Qed.

Lemma split_at_absent (c : ascii) (s : string) :
  has_char c s = false -> Reference.split_at c s = (s, None).
Proof.
  induction s as [|d s IH]; simpl; [reflexivity|].
  intros H. apply orb_false_iff in H. destruct H as [Hc Hs].
  rewrite Hc, (IH Hs). reflexivity.
Qed.

Lemma split_at_first (c : ascii) (a b : string) :
  has_char c a = false ->
  Reference.split_at c (a ++ String c b) = (a, Some b).
Proof.
  induction a as [|d a IH]; simpl.
  - intros _. now rewrite Ascii.eqb_refl.
  - intros H. apply orb_false_iff in H. destruct H as [Hc Hs].
    rewrite Hc, (IH Hs). reflexivity.
Qed.

(** A character that a test rejects does not occur where the test holds
    of every character. *)
Lemma host_ok_lacks (c : ascii) (s : string) :
  Reference.is_lower c = false -> Reference.is_digit c = false ->
  c <> "."%char ->
  forall f, Reference.host_ok f s = true -> has_char c s = false.
Proof.
  intros Hl Hd Hdot. induction s as [|d s IH]; intros f H; simpl in *;
    [reflexivity|].
  assert (Hcd : Ascii.eqb c d = false \/ c = d).
  { destruct (Ascii.eqb_spec c d); auto. }
  destruct f.
  - apply andb_true_iff in H. destruct H as [H1 H2].
    destruct Hcd as [-> | <-]; [simpl; eauto | congruence].
  - destruct (Ascii.eqb_spec d "."%char) as [-> | Hne].
    + destruct Hcd as [-> | E]; [simpl; eauto | congruence].
    + apply andb_true_iff in H. destruct H as [H1 H2].
      destruct Hcd as [-> | <-]; [simpl; eauto|].
      rewrite Hl, Hd in H1. discriminate.
Qed.

Lemma path_ok_lacks (c : ascii) (s : string) :
  Reference.is_alnum c = false -> Reference.is_mark c = false ->
  c <> "/"%char ->
  forall f, Reference.path_ok f s = true -> has_char c s = false.
Proof.
  intros Ha Hm Hslash. induction s as [|d s IH]; intros f H; simpl in *;
    [reflexivity|].
  assert (Hcd : Ascii.eqb c d = false \/ c = d).
  { destruct (Ascii.eqb_spec c d); auto. }
  destruct (Ascii.eqb_spec d "/"%char) as [-> | Hne].
  - destruct Hcd as [-> | E]; [simpl; eauto | congruence].
  - destruct (f && Ascii.eqb d ".")%bool; [discriminate|].
    apply andb_true_iff in H. destruct H as [H1 H2].
    destruct Hcd as [-> | <-]; [simpl; eauto|].
    rewrite Ha, Hm in H1. discriminate.
Qed.

Lemma all_chars_lacks (test : ascii -> bool) (c : ascii) (s : string) :
  test c = false -> Reference.all_chars test s = true -> has_char c s = false.
Proof.
  intros Hc. induction s as [|d s IH]; simpl; [reflexivity|].
  intros H. apply andb_true_iff in H. destruct H as [H1 H2].
  rewrite (IH H2), orb_false_r.
  destruct (Ascii.eqb_spec c d) as [<- | Hne]; [congruence | reflexivity].
Qed.

Lemma prefix_slash (s : string) :
  prefix "/" s = true <-> exists t, s = String "/"%char t.
Proof.
  split.
  - destruct s as [|c s]; [discriminate|]. cbn [prefix].
    destruct (ascii_dec "/"%char c) as [<- | Hne]; [eauto | discriminate].
  - intros [t ->]. cbn [prefix].
    destruct (ascii_dec "/"%char "/"%char); [now destruct t | congruence].
Qed.

Lemma path_ok_slash (f : bool) (s : string) :
  prefix "/" s = true -> Reference.path_ok f s = Reference.path_ok false s.
Proof. intros H. apply prefix_slash in H. destruct H as [t ->]. reflexivity. Qed.

Lemma path_ok_relax (s : string) :
  Reference.path_ok true s = true -> Reference.path_ok false s = true.
Proof.
  destruct s as [|c s]; simpl; [reflexivity|].
  destruct (Ascii.eqb c "/"); [auto|].
  destruct (Ascii.eqb c "."); simpl; [discriminate | auto].
Qed.

Lemma path_ok_directory (p q : string) :
  Reference.path_ok true q = true ->
  forall f, Reference.path_ok f p = true ->
    Reference.path_ok f (Reference.directory p ++ q) = true.
Proof.
  intros Hq. induction p as [|c p IH]; intros f H.
  - simpl. destruct f; [assumption | now apply path_ok_relax].
  - simpl in H. cbn [Reference.directory].
    destruct ((Reference.directory p =? "") && negb (Ascii.eqb c "/"))%bool
      eqn:E.
    + simpl. destruct f; [assumption | now apply path_ok_relax].
    + cbn [append Reference.path_ok].
      destruct (Ascii.eqb c "/"); [now apply IH|].
      destruct (f && Ascii.eqb c ".")%bool; [discriminate|].
      apply andb_true_iff in H. destruct H as [H1 H2].
      rewrite H1. simpl. now apply IH.
Qed.

Lemma prefix_directory (p : string) :
  prefix "/" p = true -> prefix "/" (Reference.directory p) = true.
Proof.
  intros H. apply prefix_slash in H. destruct H as [t ->].
  apply prefix_slash. exists (Reference.directory t).
  cbn [Reference.directory]. rewrite Ascii.eqb_refl, andb_false_r. reflexivity.
Qed.

Lemma strip_scheme_scheme (s sch rest : string) :
  Reference.strip_scheme s = Some (sch, rest) ->
  sch = "https" \/ sch = "http".
Proof.
  unfold Reference.strip_scheme.
  destruct (Reference.strip_prefix "https://" s); [intros H; injection H; auto|].
  destruct (Reference.strip_prefix "http://" s); [intros H; injection H; auto|].
  discriminate.
Qed.

Lemma parse_absolute_well_formed (s : string) (u : URL) :
  Reference.parse_absolute s = Some u -> Reference.well_formed u = true.
Proof.
  unfold Reference.parse_absolute.
  destruct (Reference.strip_scheme s) as [[sch rest]|] eqn:Hs; [|discriminate].
  destruct (Reference.split_at "#" rest) as [rest1 frag].
  destruct (Reference.split_at "?" rest1) as [rest2 qry].
  destruct (Reference.split_at "/" rest2) as [hst after].
  match goal with |- (if ?c then _ else _) = _ -> _ => destruct c eqn:Hc end;
    [|discriminate].
  intros H. injection H as <-.
  repeat (apply andb_true_iff in Hc; destruct Hc as [Hc ?]).
  unfold Reference.well_formed. cbn [scheme username password port host path
                                     query fragment].
  repeat (apply andb_true_iff; split); auto.
  - apply strip_scheme_scheme in Hs. destruct Hs as [-> | ->]; reflexivity.
  - apply prefix_slash. destruct after; simpl; eauto.
Qed.

Lemma resolve_well_formed (input : string) (b u : URL) :
  Reference.well_formed b = true ->
  Reference.resolve input b = Some u -> Reference.well_formed u = true.
Proof.
  unfold Reference.well_formed at 1. intros Hb.
  repeat (apply andb_true_iff in Hb; destruct Hb as [Hb ?]).
  unfold Reference.resolve.
  destruct (Reference.split_at "#" input) as [rest frag].
  destruct (Reference.split_at "?" rest) as [pth qry].
  match goal with |- (if ?c then _ else _) = _ -> _ => destruct c eqn:Hc end;
    [discriminate|].
  apply orb_false_iff in Hc. destruct Hc as [Hc Hdouble].
  apply negb_false_iff in Hc.
  repeat (apply andb_true_iff in Hc; destruct Hc as [Hc ?]).
  destruct (pth =? "") eqn:Hempty; [|destruct (prefix "/" pth) eqn:Hslash];
    intros E; injection E as <-; unfold Reference.well_formed;
    cbn [scheme username password port host path query fragment];
    repeat (apply andb_true_iff; split); auto.
  - destruct qry; auto.
  - now apply path_ok_relax.
  - match goal with E : prefix "/" (path b) = true |- _ =>
      apply prefix_directory, prefix_slash in E; destruct E as [t ->] end.
    apply prefix_slash. simpl. eauto.
  - now apply path_ok_directory.
Qed.

Lemma basic_URL_new_well_formed (input : string) (base : option string)
  (u : URL) :
  Reference.basic_URL_new input base = Some u ->
  Reference.well_formed u = true.
Proof.
  unfold Reference.basic_URL_new.
  destruct (Reference.parse_absolute input) as [v|] eqn:Hv.
  - intros E. injection E as <-. now apply parse_absolute_well_formed in Hv.
  - destruct base as [b|]; [|discriminate].
    destruct (Reference.parse_absolute b) as [bu|] eqn:Hb; [|discriminate].
    apply resolve_well_formed. now apply parse_absolute_well_formed in Hb.
Qed.

Lemma strip_scheme_https (rest : string) :
  Reference.strip_scheme ("https://" ++ rest) = Some ("https", rest).
Proof.
  unfold Reference.strip_scheme, Reference.strip_prefix.
  replace (prefix "https://" ("https://" ++ rest)) with true
    by (symmetry; apply prefix_correct; simpl; now destruct rest).
  simpl. now rewrite Nat.sub_0_r, substring_all.
Qed.

Lemma strip_scheme_http (rest : string) :
  Reference.strip_scheme ("http://" ++ rest) = Some ("http", rest).
Proof.
  unfold Reference.strip_scheme, Reference.strip_prefix.
  replace (prefix "https://" ("http://" ++ rest)) with false.
  2:{ symmetry. apply not_true_is_false. intros H.
      apply prefix_correct in H. simpl in H. discriminate. }
  replace (prefix "http://" ("http://" ++ rest)) with true
    by (symmetry; apply prefix_correct; simpl; now destruct rest).
  simpl. now rewrite Nat.sub_0_r, substring_all.
Qed.

(** A URL of the reference platform without fragment is the parse of its
    own serialization. *)
Lemma parse_absolute_href (u : URL) :
  Reference.well_formed u = true -> fragment u = None ->
  Reference.parse_absolute (href u) = Some u.
Proof.
  destruct u as [sch usr pwd hst prt pth qry frg]. unfold Reference.well_formed.
  cbn [scheme username password port host path query fragment].
  intros H ->.
  repeat (apply andb_true_iff in H; destruct H as [H ?]).
  destruct prt; [discriminate|]. destruct hst as [hst|]; [|discriminate].
  repeat match goal with E : (_ =? _) = true |- _ =>
           apply String.eqb_eq in E end.
  subst usr pwd.
  match goal with E : prefix "/" pth = true |- _ =>
    apply prefix_slash in E; destruct E as [t ->] end.
  set (qs := match qry with Some q => "?" ++ q | None => "" end).
  assert (Hhref : forall s, href (mkURL s "" "" (Some hst) None
                                    (String "/" t) qry None)
                            = s ++ "://" ++ hst ++ String "/" t ++ qs).
  { intros s. unfold href, authority, qs.
    cbn [scheme username password port host path query fragment].
    simpl. now rewrite ?append_empty_r, ?append_assoc. }
  assert (Hhash : has_char "#" (hst ++ String "/" t ++ qs) = false).
  { rewrite !has_char_app.
    rewrite (host_ok_lacks "#" hst eq_refl eq_refl ltac:(discriminate) true)
      by assumption.
    rewrite (path_ok_lacks "#" (String "/" t) eq_refl eq_refl
               ltac:(discriminate) false) by assumption.
    unfold qs. destruct qry as [q|]; [|reflexivity]. simpl.
    eapply all_chars_lacks; [|eassumption]. reflexivity. }
  assert (Hquery : Reference.split_at "?" (hst ++ String "/" t ++ qs)
                   = (hst ++ String "/" t, qry)).
  { assert (Hno : has_char "?" (hst ++ String "/" t) = false).
    { rewrite has_char_app.
      rewrite (host_ok_lacks "?" hst eq_refl eq_refl ltac:(discriminate) true)
        by assumption.
      now rewrite (path_ok_lacks "?" (String "/" t) eq_refl eq_refl
                     ltac:(discriminate) false) by assumption. }
    unfold qs. destruct qry as [q|].
    - rewrite <- append_assoc. now apply split_at_first.
    - rewrite append_empty_r. now apply split_at_absent. }
  assert (Hpath : Reference.split_at "/" (hst ++ String "/" t) = (hst, Some t)).
  { apply split_at_first.
    now apply (host_ok_lacks "/" hst eq_refl eq_refl ltac:(discriminate) true). }
  assert (Hparse : forall s,
            Reference.strip_scheme (s ++ "://" ++ hst ++ String "/" t ++ qs)
            = Some (s, hst ++ String "/" t ++ qs) ->
            Reference.parse_absolute (s ++ "://" ++ hst ++ String "/" t ++ qs)
            = Some (mkURL s "" "" (Some hst) None (String "/" t) qry None)).
  { intros s Hs. unfold Reference.parse_absolute.
    rewrite Hs, (split_at_absent _ _ Hhash), Hquery, Hpath.
    change ("/" ++ t) with (String "/" t).
    repeat match goal with E : _ = true |- _ => rewrite E end.
    reflexivity. }
  rewrite Hhref.
  match goal with E : _ || _ = true |- _ =>
    apply orb_true_iff in E; destruct E as [E | E];
    apply String.eqb_eq in E; subst sch end.
  - apply Hparse. apply (strip_scheme_https (hst ++ String "/" t ++ qs)).
  - apply Hparse. apply (strip_scheme_http (hst ++ String "/" t ++ qs)).
Qed.

Lemma clear_hash_well_formed (u : URL) :
  Reference.well_formed u = true -> Reference.well_formed (clear_hash u) = true.
Proof.
  unfold Reference.well_formed. cbn [clear_hash scheme username password
                                     port host path query fragment].
  intros H. repeat (apply andb_true_iff in H; destruct H as [H ?]).
  repeat (apply andb_true_iff; split); auto.
Qed.

Lemma Reference_round_trips : round_trips Reference.platform.
Proof.
  intros h b u Hu. cbn [URL_new Reference.platform] in *.
  apply basic_URL_new_well_formed, clear_hash_well_formed in Hu.
  unfold Reference.basic_URL_new.
  now rewrite (parse_absolute_href (clear_hash u) Hu eq_refl).
Qed.

(** ** The frontier *)

(** C3. At every step of the loop [visits] is included in [links] with
    the seed added; from any step to any later one [links] and [visits]
    only gain elements, appended after those they hold. *)
Theorem frontier_monotone (P : Platform) (env : Env) (url : string)
  (domain : list string) (maxPages : nat) (n d : nat) :
  let run' := run P env url domain maxPages in
  incl (visits (run' n)) (url :: links (run' n))
  /\ (exists added, links (run' (n + d)) = (links (run' n) ++ added)%list)
  /\ (exists added, visits (run' (n + d)) = (visits (run' n) ++ added)%list)
  /\ incl (links (run' n)) (links (run' (n + d)))
  /\ incl (visits (run' n)) (visits (run' (n + d))).
Proof.
  intros run'.
  destruct (run_inv P env url domain maxPages n) as [(Hv & _) _].
  destruct (run_grows P env url domain maxPages n d) as (la & va & Hl & Hvs).
  fold run' in Hv, Hl, Hvs. repeat split; eauto.
  - rewrite Hl. now apply incl_appl, incl_refl.
  - rewrite Hvs. now apply incl_appl, incl_refl.
Qed.

(** C8, amended. On a platform whose URL parser round-trips (the
    serialization of a URL it produced parses to that URL), every element
    of [links], at every step, is a Link: [new URL] parses it to a URL
    without fragment whose serialization it is, whose host name is in
    scope and that [shouldSkipUrl] lets through. Every element of
    [visits] is such a Link or the seed, which the two filters do not
    apply to. On any platform, every element of [links] is what the
    anchors loop accepted for some [href] resolved against the seed. *)
Theorem frontier_links (P : Platform) (env : Env) (url : string)
  (domain : list string) (maxPages : nat) (n : nat) (x : string)
  (Hround : round_trips P)
  (Hx : In x (links (run P env url domain maxPages n))
        \/ In x (visits (run P env url domain maxPages n))) :
  (x = url \/ is_Link P domain x)
  /\ (In x (links (run P env url domain maxPages n)) -> is_Link P domain x)
  /\ (In x (links (run P env url domain maxPages n)) ->
      exists h, accepted P url domain h x).
Proof.
  destruct (run_inv P env url domain maxPages n) as [(Hv & _ & _ & _ & Hl) _].
  assert (Hlink : forall y, In y (links (run P env url domain maxPages n)) ->
                    is_Link P domain y).
  { intros y Hy. destruct (Hl y Hy) as [h Hh].
    now apply (accepted_is_Link P url domain h y). }
  split; [|split].
  - destruct Hx as [Hx | Hx]; [right; now apply Hlink|].
    destruct (Hv x Hx) as [<- | Hx']; [now left | right; now apply Hlink].
  - apply Hlink.
  - apply Hl.
Qed.

Lemma frontier_links_witness :
  let run' := run Reference.platform
                (constant_env (mkPage (Some 200%Z) [Some "/a#top"]))
                "https://example.com" (default_domain "example.com") 2 in
  round_trips Reference.platform
  /\ (In "https://example.com/a" (links (run' 2))
      \/ In "https://example.com/a" (visits (run' 2)))
  /\ ("https://example.com/a" = "https://example.com"
      \/ is_Link Reference.platform (default_domain "example.com")
           "https://example.com/a").
Proof.
  intros run'. split; [exact Reference_round_trips|]. split.
  - left. left. reflexivity.
  - apply (frontier_links Reference.platform
             (constant_env (mkPage (Some 200%Z) [Some "/a#top"]))
             "https://example.com" (default_domain "example.com") 2 2);
      [exact Reference_round_trips|].
    left. left. reflexivity.
Defined.

(** C8 as stated fails for the seed, also on a platform that
    round-trips: given [https://example.com/report.pdf] the loop puts it
    into [visits], and [shouldSkipUrl] answers true for it. *)
Lemma seed_not_filtered :
  ~ (forall P env url domain maxPages n x,
       round_trips P ->
       In x (visits (run P env url domain maxPages n)) ->
       is_Link P domain x).
Proof.
  intros H.
  destruct (H Reference.platform (constant_env (mkPage (Some 200%Z) []))
              "https://example.com/report.pdf"
              (default_domain "example.com") 1 1
              "https://example.com/report.pdf" Reference_round_trips)
    as (u & _ & _ & _ & _ & Hskip).
  - left. reflexivity.
  - discriminate Hskip.
Qed.

(** ** A navigation that fails *)

Lemma extract_incl (P : Platform) (url : string) (domain : list string)
  (anchors : list (option string)) (links : JSSet.t) (x : string) :
  In x links -> In x (extract P url domain anchors links).
Proof.
  unfold extract. revert links.
  induction anchors as [|a anchors IH]; intros links Hx; simpl; [assumption|].
  apply IH. destruct (anchor_step_grows P url domain a links) as [ad ->].
  apply in_or_app. now left.
Qed.

Lemma extract_accept_In (P : Platform) (url : string) (domain : list string)
  (anchors : list (option string)) (links : JSSet.t) (h l : string) :
  In (Some h) anchors -> h <> "" -> accept P url domain h = Some l ->
  In l (extract P url domain anchors links).
Proof.
  revert links. induction anchors as [|a anchors IH]; intros links Hin Hne Ha;
    [destruct Hin|].
  destruct Hin as [-> | Hin].
  - change (extract P url domain (Some h :: anchors) links)
      with (extract P url domain anchors
              (anchor_step P url domain (Some h) links)).
    apply extract_incl. apply anchor_step_In; [assumption|].
    right. now apply accept_accepted.
  - change (extract P url domain (a :: anchors) links)
      with (extract P url domain anchors (anchor_step P url domain a links)).
    now apply IH.
Qed.

Lemma extract_nothing_new (P : Platform) (url : string)
  (domain : list string) (anchors : list (option string))
  (links : JSSet.t) :
  (forall h l, In (Some h) anchors -> h <> "" ->
     accept P url domain h = Some l -> In l links) ->
  extract P url domain anchors links = links.
Proof.
  unfold extract. induction anchors as [|a anchors IH]; intros H; simpl;
    [reflexivity|].
  assert (E : anchor_step P url domain a links = links).
  { destruct (anchor_step_cases P url domain a links)
      as [E | (h & l & -> & Hne & Ha & E)]; [exact E|].
    rewrite E. apply add_present. apply (H h l); auto. now left. }
  rewrite E. apply IH. intros h l Hin. apply H. now right.
Qed.

Lemma extract_In (P : Platform) (url : string) (domain : list string)
  (anchors : list (option string)) (links : JSSet.t) (x : string) :
  In x (extract P url domain anchors links) <->
  In x links
  \/ exists h, In (Some h) anchors /\ h <> "" /\ accepted P url domain h x.
Proof.
  split.
  - unfold extract. revert links.
    induction anchors as [|a anchors IH]; intros links Hx; simpl in Hx;
      [now left|].
    destruct (IH _ Hx) as [Hs | (h & Hin & Hne & Hacc)].
    + destruct (anchor_step_cases P url domain a links)
        as [E | (h & l & -> & Hne & Ha & E)]; rewrite E in Hs; [now left|].
      apply In_add in Hs. destruct Hs as [-> | Hs]; [|now left].
      right. exists h. split; [now left|]. split; [assumption|].
      now apply accept_accepted.
    + right. exists h. split; [now right | auto].
  - intros [Hx | (h & Hin & Hne & Hacc)].
    + now apply extract_incl.
    + apply (extract_accept_In P url domain anchors links h x); auto.
      now apply accept_accepted.
Qed.


(** C7, amended. When [page.goto] rejects, the loop goes on as after any
    other navigation: the target is in [visits]; the anchors loop still
    runs, on the anchors the driver then reports, and adds exactly the
    links it accepts from them, so that the iteration adds no link
    exactly when every link accepted from those anchors was found before
    (as when none is accepted); then the loop leaves by [break] on an
    empty frontier or moves to the loop head with a target taken from
    the unvisited links. *)
Theorem failed_navigation_continues (P : Platform) (env : Env)
  (url : string) (domain : list string) (maxPages : nat) (n : nat)
  (Hhead : pc (run P env url domain maxPages n) = AtHead)
  (Hbudget : i (run P env url domain maxPages n) < maxPages)
  (Hfail : response (driver env (i (run P env url domain maxPages n))
                       (nextUrl (run P env url domain maxPages n))) = None) :
  let run' := run P env url domain maxPages in
  let page := driver env (i (run' n)) (nextUrl (run' n)) in
  let m := S n + List.length (anchors page) in
  In (nextUrl (run' n)) (visits (run' m))
  /\ pc (run' m) = InAnchors []
  /\ links (run' m) = extract P url domain (anchors page) (links (run' n))
  /\ (forall x,
        In x (links (run' m)) <->
        In x (links (run' n))
        \/ exists h, In (Some h) (anchors page) /\ h <> ""
                      /\ accepted P url domain h x)
  /\ (links (run' m) = links (run' n) <->
      forall h x, In (Some h) (anchors page) -> h <> "" ->
                  accepted P url domain h x -> In x (links (run' n)))
  /\ (pc (run' (S m)) = Exited Exhausted
      /\ JSSet.difference (links (run' m)) (visits (run' m)) = []
      \/ pc (run' (S m)) = AtHead
         /\ i (run' (S m)) = S (i (run' n))
         /\ In (nextUrl (run' (S m)))
               (JSSet.difference (links (run' m)) (visits (run' m)))).
Proof.
  intros run' page m.
  assert (Hm : m = S n + List.length (anchors page)) by reflexivity.
  clearbody m.
  pose proof (head_step P env url domain maxPages n Hhead Hbudget) as Hs.
  destruct (anchors_phase P env url domain maxPages (anchors page) (S n))
    as (H1 & H2 & H3 & H4 & H5 & H6); [now rewrite Hs|].
  rewrite <- Hm in H1, H2, H3, H4, H5, H6.
  rewrite Hs in H2, H3, H4, H5, H6.
  cbn [links visits nextUrl i navigations] in H2, H3, H4, H5, H6.
  fold run' in H1, H2, H3, H4, H5, H6.
  split; [|split; [|split; [|split; [|split]]]].
  - rewrite H3. apply In_add. now left.
  - exact H1.
  - exact H2.
  - intros x. rewrite H2. apply extract_In.
  - rewrite H2. split.
    + intros E h x Hin Hne Hacc. rewrite <- E.
      apply extract_In. right. exists h. auto.
    + intros Hall. apply extract_nothing_new. intros h l Hin Hne Ha.
      apply (Hall h l Hin Hne). now apply accept_accepted.
  - pose proof (select_step P env url domain maxPages m H1) as [Hsel _].
    fold run' in Hsel.
    destruct (nextUnvisited (links (run' m)) (visits (run' m))
                (random env (i (run' m)))) as [next|] eqn:E.
    + right. destruct Hsel as (Hp & Hi & Hnext). rewrite Hi, H5, Hnext.
      repeat split; auto. now apply nextUnvisited_Some in E.
    + left. split; [tauto|]. now apply nextUnvisited_None in E.
Qed.

Lemma failed_navigation_continues_witness :
  let env := constant_env (mkPage None [Some "/a"]) in
  let run' := run Reference.platform env "https://example.com/"
                (default_domain "example.com") 2 in
  pc (run' 0) = AtHead
  /\ i (run' 0) < 2
  /\ response (driver env (i (run' 0)) (nextUrl (run' 0))) = None
  /\ In "https://example.com/" (visits (run' 2))
  /\ links (run' 2) = ["https://example.com/a"].
Proof.
  intros env run'.
  destruct (failed_navigation_continues Reference.platform env
              "https://example.com/" (default_domain "example.com") 2 0
              eq_refl (le_S 1 1 (le_n 1)) eq_refl) as (H1 & _ & H3 & _).
  split; [reflexivity|]. split; [repeat constructor|].
  split; [reflexivity|]. split; [exact H1 | exact H3].
Defined.

(** C7 as stated fails: a navigation that times out on a page whose
    anchors the driver still reports adds their links. *)
Lemma failed_navigation_adds_links :
  ~ (forall P env url domain maxPages n,
       pc (run P env url domain maxPages n) = AtHead ->
       i (run P env url domain maxPages n) < maxPages ->
       response (driver env (i (run P env url domain maxPages n))
                   (nextUrl (run P env url domain maxPages n))) = None ->
       links (run P env url domain maxPages
                (S n + List.length
                         (anchors (driver env
                            (i (run P env url domain maxPages n))
                            (nextUrl (run P env url domain maxPages n))))))
       = links (run P env url domain maxPages n)).
Proof.
  intros H.
  specialize (H Reference.platform (constant_env (mkPage None [Some "/a"]))
                "https://example.com/" (default_domain "example.com") 2 0
                eq_refl (le_S 1 1 (le_n 1)) eq_refl).
  discriminate H.
Qed.

(** ** The base of resolution *)

(** C10. The anchors loop resolves every [href] against the seed [url],
    whatever page is being visited: the link an [href] contributes is the
    one [accepted] gives for the seed as base, and a link that the
    [href] adds on one page is in [links] once the same [href] has been
    processed on any other page. *)
Theorem anchors_resolved_against_seed (P : Platform) (env : Env)
  (url : string) (domain : list string) (maxPages : nat)
  (c c' : Config) (h : string) (rest rest' : list (option string))
  (Hne : h <> "")
  (Hc : pc c = InAnchors (Some h :: rest))
  (Hc' : pc c' = InAnchors (Some h :: rest')) :
  let step' := step P env url domain maxPages in
  (forall x, In x (links (step' c)) <->
             In x (links c) \/ accepted P url domain h x)
  /\ (forall x, In x (links (step' c)) -> ~ In x (links c) ->
                In x (links (step' c')))
  /\ (links c = links c' -> links (step' c) = links (step' c')).
Proof.
  intros step'.
  assert (Hs : forall k r, pc k = InAnchors (Some h :: r) ->
                 links (step' k) = anchor_step P url domain (Some h) (links k)).
  { intros k r Hk. unfold step', step. now rewrite Hk. }
  rewrite (Hs c rest Hc), (Hs c' rest' Hc'). split; [|split].
  - intros x. now apply anchor_step_In.
  - intros x Hx Hnx. apply anchor_step_In in Hx; [|assumption].
    apply anchor_step_In; [assumption|]. right. tauto.
  - now intros ->.
Qed.

Lemma anchors_resolved_against_seed_witness :
  let P := Reference.platform in
  let env := constant_env (mkPage (Some 200%Z) [Some "b"]) in
  let seed := "https://example.com/" in
  let c := mkConfig [] [seed] (mkLedger [] []) seed 0
                    (InAnchors [Some "b"]) [seed] in
  let c' := mkConfig [] [seed; "https://example.com/dir/page"]
                     (mkLedger [] []) "https://example.com/dir/page" 1
                     (InAnchors [Some "b"])
                     [seed; "https://example.com/dir/page"] in
  "b" <> ""
  /\ pc c = InAnchors [Some "b"]
  /\ pc c' = InAnchors [Some "b"]
  /\ links (step P env seed (default_domain "example.com") 3 c')
     = ["https://example.com/b"]
  /\ option_map href (URL_new P "b" (Some (nextUrl c')))
     = Some "https://example.com/dir/b"
  /\ (links c = links c' ->
      links (step P env seed (default_domain "example.com") 3 c)
      = links (step P env seed (default_domain "example.com") 3 c')).
Proof.
  intros P env seed c c'.
  split; [discriminate|]. repeat (split; [reflexivity|]).
  apply (anchors_resolved_against_seed P env seed
           (default_domain "example.com") 3 c c' "b" [] []);
    [discriminate | reflexivity | reflexivity].
Defined.

(** ** The request ledger *)

(** C4. For a response whose URL [new URL] accepts, the observer adds
    the host name to [domains] whether or not it is in the domain list,
    and sets [requests[url]] to the status exactly when the host name is
    an element of the domain list, leaving [requests] alone otherwise.
    So every key of [requests] has its host name in the domain list,
    before and after each response and at every step of a run; a second
    response for the same URL replaces the status and adds no key. *)
Theorem record_ledger (P : Platform) (domain : list string) (url : string)
  (status : Z) (l : Ledger) (u : URL)
  (Hparse : URL_new P url None = Some u) :
  let l' := record P domain (url, status) l in
  domains l' = JSSet.add (hostname u) (domains l)
  /\ In (hostname u) (domains l')
  /\ (In (hostname u) domain ->
      requests l' = JSMap.set url status (requests l)
      /\ JSMap.get url (requests l') = Some status)
  /\ (~ In (hostname u) domain -> requests l' = requests l)
  /\ (ledger_in_domain P domain l -> ledger_in_domain P domain l')
  /\ (forall status2,
        In (hostname u) domain ->
        let l2 := record P domain (url, status2) l' in
        JSMap.get url (requests l2) = Some status2
        /\ JSMap.keys (requests l2) = JSMap.keys (requests l'))
  /\ (forall env seed maxPages n,
        ledger (run P env seed domain maxPages (S n))
        = observe P domain (events env n)
            (ledger (run P env seed domain maxPages n))
        /\ ledger_in_domain P domain
             (ledger (run P env seed domain maxPages n))).
Proof.
  intros l'.
  assert (Hl' : l' = mkLedger
                       (if includes domain (hostname u)
                        then JSMap.set url status (requests l)
                        else requests l)
                       (JSSet.add (hostname u) (domains l))).
  { unfold l', record. simpl. now rewrite Hparse. }
  split; [now rewrite Hl'|].
  split; [rewrite Hl'; simpl; apply In_add; now left|].
  split; [|split; [|split; [|split]]].
  - intros Hin. apply includes_In in Hin. rewrite Hl'. simpl. rewrite Hin.
    split; [reflexivity | apply get_set_same].
  - intros Hout. rewrite Hl'. simpl.
    destruct (includes domain (hostname u)) eqn:E; [|reflexivity].
    apply includes_In in E. contradiction.
  - apply record_in_domain.
  - intros status2 Hin l2. apply includes_In in Hin.
    unfold l2, record. simpl. rewrite Hparse, Hin. simpl.
    split; [apply get_set_same|]. apply keys_set_present.
    rewrite Hl'. simpl. rewrite Hin. apply keys_set. now left.
  - intros env seed maxPages n. split.
    + rewrite run_S. now rewrite ledger_step.
    + apply ledger_run.
Qed.

Lemma record_ledger_witness :
  let P := Reference.platform in
  let domain := default_domain "example.com" in
  let u := mkURL "https" "" "" (Some "cdn.other.com") None "/x.js" None None in
  let l' := record P domain ("https://cdn.other.com/x.js", 200%Z)
              (mkLedger [] []) in
  URL_new P "https://cdn.other.com/x.js" None = Some u
  /\ In "cdn.other.com" (domains l')
  /\ (~ In "cdn.other.com" domain -> requests l' = []).
Proof.
  intros P domain u l'.
  destruct (record_ledger P domain "https://cdn.other.com/x.js" 200%Z
              (mkLedger [] []) u eq_refl) as (_ & H2 & _ & H4 & _).
  split; [reflexivity|]. split; [exact H2 | exact H4].
Defined.

(** ** The next page *)

(** C9. [nextUnvisited] works on [links.difference(visits)], the links
    not yet visited. It answers [None], and the loop leaves by [break],
    exactly when that list is empty. Otherwise it answers the element at
    index [Math.floor(r * n)] of the [n] unvisited links, [r] being the
    draw: each index [k] is selected by the draws of the interval from
    [k/n] to [(k+1)/n], all of length [1/n], so a uniform draw makes a
    uniform choice; every unvisited link, and not only the first
    discovered, is the answer for some draw. *)
Theorem nextUnvisited_random (P : Platform) (env : Env) (url : string)
  (domain : list string) (maxPages : nat) (ls vs : JSSet.t) (r : Draw) :
  let unvisited := JSSet.difference ls vs in
  let n := List.length unvisited in
  (forall x, In x unvisited <-> In x ls /\ ~ In x vs)
  /\ (nextUnvisited ls vs r = None <-> unvisited = [])
  /\ (forall c, pc c = InAnchors [] ->
        (pc (step P env url domain maxPages c) = Exited Exhausted <->
         JSSet.difference (links c) (visits c) = []))
  /\ (unvisited <> [] ->
      random_index r n < n
      /\ nextUnvisited ls vs r = Some (nth (random_index r n) unvisited "")
      /\ In (nth (random_index r n) unvisited "") unvisited)
  /\ (forall k, k < n ->
        (random_index r n = k <->
         (Z.of_nat k # Pos.of_nat n <= value r)%Q
         /\ (value r < Z.of_nat (S k) # Pos.of_nat n)%Q))
  /\ (forall x, In x unvisited ->
        exists r', nextUnvisited ls vs r' = Some x).
Proof.
  intros unvisited n. split; [|split; [|split; [|split; [|split]]]].
  - intros x. apply In_difference.
  - apply nextUnvisited_None.
  - intros c Hpc. unfold step. rewrite Hpc.
    rewrite <- (nextUnvisited_None _ _ (random env (i c))).
    destruct (nextUnvisited (links c) (visits c) (random env (i c)));
      simpl; split; intros H; try reflexivity; discriminate.
  - intros Hne.
    assert (Hn : 0 < n).
    { unfold n. destruct unvisited; [congruence | simpl; lia]. }
    pose proof (random_index_lt r n Hn) as Hlt.
    split; [assumption|]. split; [now apply nextUnvisited_index|].
    now apply nth_In.
  - intros k Hk. apply random_index_interval. lia.
  - intros x Hx. destruct (In_nth _ _ "" Hx) as (k & Hk & Hnth).
    destruct (random_index_onto n k Hk) as [r' Hr'].
    exists r'. rewrite nextUnvisited_index.
    + fold unvisited. fold n. now rewrite Hr', Hnth.
    + fold unvisited. intros E. rewrite E in Hx. destruct Hx.
Qed.

(** * Further properties of [index.ts] *)

(** ** The visit log *)

Section VisitLog.

Variable P : Platform.
Variable env : Env.
Variable url : string.
Variable domain : list string.
Variable maxPages : nat.

Local Abbreviation run' := (run P env url domain maxPages).

(** The target at the loop head is new, and the log starts at the seed. *)
Lemma visit_log_run (n : nat) :
  visits (run' n) = navigations (run' n)
  /\ (pc (run' n) = AtHead -> ~ In (nextUrl (run' n)) (visits (run' n)))
  /\ (navigations (run' n) = [] -> nextUrl (run' n) = url)
  /\ (navigations (run' n) = []
      \/ exists t, navigations (run' n) = url :: t).
Proof.
  induction n as [|n (Hv & Hnew & Hseed & Hhd)].
  - simpl. repeat split; auto.
  - destruct (run_inv P env url domain maxPages n) as [_ Hnav].
    rewrite run_S. unfold step, nav_inv in *. simpl.
    destruct (pc (run' n)) as [|[|a rest]|e] eqn:Hpc.
    + destruct (i (run' n) <? maxPages)%nat; simpl.
      * unfold JSSet.add.
        replace (JSSet.has (nextUrl (run' n)) (visits (run' n))) with false.
        2:{ symmetry. apply not_true_is_false. rewrite has_In. auto. }
        rewrite Hv. repeat split; auto; try discriminate.
        -- intros E. now apply app_eq_nil in E.
        -- right. destruct Hhd as [E | [t E]].
           ++ rewrite E, (Hseed E). now exists [].
           ++ rewrite E. now exists (t ++ [nextUrl (run' n)])%list.
      * repeat split; auto; discriminate.
    + destruct (nextUnvisited (links (run' n)) (visits (run' n))
                  (random env (i (run' n)))) as [next|] eqn:E; simpl.
      * repeat split; auto.
        -- intros _. apply nextUnvisited_Some, In_difference in E. tauto.
        -- intros E0. rewrite E0 in Hnav. simpl in Hnav. lia.
      * repeat split; auto; discriminate.
    + simpl. repeat split; auto; discriminate.
    + simpl. rewrite Hpc. repeat split; auto; discriminate.
Qed.

End VisitLog.

(** X1. [visits], in insertion order, is the log of the targets of
    [page.goto]: no URL string is a target twice (two different strings,
    such as the seed as typed and its normalized form, may still name one
    page), the first target is the seed, and the number of elements of
    [visits] is at most [maxPages] and at most one more than the number
    of links found. *)
Theorem visits_are_navigations (P : Platform) (env : Env) (url : string)
  (domain : list string) (maxPages : nat) (n : nat) :
  let c := run P env url domain maxPages n in
  visits c = navigations c
  /\ NoDup (navigations c)
  /\ (navigations c = [] \/ exists t, navigations c = url :: t)
  /\ List.length (visits c) <= maxPages
  /\ List.length (visits c) <= S (List.length (links c)).
Proof.
  intros c.
  destruct (visit_log_run P env url domain maxPages n) as (Hv & _ & _ & Hhd).
  destruct (run_inv P env url domain maxPages n)
    as [(Hincl & _ & _ & Hnd & _) Hnav].
  fold c in Hv, Hhd, Hincl, Hnd, Hnav.
  split; [assumption|]. split; [now rewrite <- Hv|]. split; [assumption|].
  split.
  - rewrite Hv. unfold nav_inv in Hnav.
    destruct (pc c) as [| |[|]]; lia.
  - apply (NoDup_incl_length Hnd Hincl).
Qed.

(** X2. When the loop leaves by [break] every link found has been
    visited: [visits] holds the seed and the links, and nothing else. *)
Theorem exhausted_visits_all_links (P : Platform) (env : Env)
  (url : string) (domain : list string) (maxPages : nat) (n : nat)
  (Hexit : pc (run P env url domain maxPages n) = Exited Exhausted) :
  let c := run P env url domain maxPages n in
  forall x, In x (visits c) <-> x = url \/ In x (links c).
Proof.
  intros c x.
  destruct (visit_log_run P env url domain maxPages n) as (Hv & _ & _ & Hhd).
  destruct (run_inv P env url domain maxPages n) as [(Hincl & _) Hnav].
  fold c in Hv, Hhd, Hincl, Hnav, Hexit. unfold nav_inv in Hnav.
  rewrite Hexit in Hnav. destruct Hnav as (Hlen & _ & Hd).
  apply difference_nil in Hd. split.
  - intros Hx. destruct (Hincl x Hx) as [<- | Hl]; auto.
  - intros [-> | Hx]; [|now apply Hd].
    rewrite Hv. destruct Hhd as [E | [t E]]; rewrite E in *.
    + discriminate Hlen.
    + now left.
Qed.

Lemma exhausted_visits_all_links_witness :
  let c := run Reference.platform
             (constant_env (mkPage (Some 200%Z) [Some "/a"; Some "/a#x"]))
             "https://example.com/" (default_domain "example.com") 5 8 in
  pc c = Exited Exhausted
  /\ (In "https://example.com/a" (visits c) <->
      "https://example.com/a" = "https://example.com/"
      \/ In "https://example.com/a" (links c)).
Proof.
  intros c. split; [reflexivity|].
  apply (exhausted_visits_all_links Reference.platform
           (constant_env (mkPage (Some 200%Z) [Some "/a"; Some "/a#x"]))
           "https://example.com/" (default_domain "example.com") 5 8).
  reflexivity.
Defined.

(** X3. When the loop leaves by the test [i < maxPages], [visits] holds
    exactly [maxPages] URL strings, no two of them equal. *)
Theorem budget_exit_visits (P : Platform) (env : Env) (url : string)
  (domain : list string) (maxPages : nat) (n : nat)
  (Hexit : pc (run P env url domain maxPages n) = Exited PageBudgetReached) :
  let c := run P env url domain maxPages n in
  List.length (visits c) = maxPages /\ NoDup (visits c).
Proof.
  intros c.
  destruct (visit_log_run P env url domain maxPages n) as (Hv & _).
  destruct (run_inv P env url domain maxPages n)
    as [(_ & _ & _ & Hnd & _) Hnav].
  fold c in Hv, Hnd, Hnav, Hexit. unfold nav_inv in Hnav.
  rewrite Hexit in Hnav. split; [rewrite Hv; tauto | assumption].
Qed.

Lemma budget_exit_visits_witness :
  let c := run Reference.platform
             (constant_env (mkPage (Some 200%Z) [Some "/a"; Some "/b"]))
             "https://example.com/" (default_domain "example.com") 2 9 in
  pc c = Exited PageBudgetReached
  /\ List.length (visits c) = 2.
Proof.
  intros c. split; [reflexivity|].
  apply (budget_exit_visits Reference.platform
           (constant_env (mkPage (Some 200%Z) [Some "/a"; Some "/b"]))
           "https://example.com/" (default_domain "example.com") 2 9).
  reflexivity.
Defined.

(** ** The anchors of one page *)

(** X4. The anchors loop over one page adds exactly the links accepted
    from its non-empty [href]s, each once, and keeps every link found
    before, in place. *)
Theorem extract_page (P : Platform) (url : string) (domain : list string)
  (anchors : list (option string)) (links : JSSet.t) :
  (forall x,
     In x (extract P url domain anchors links) <->
     In x links
     \/ exists h, In (Some h) anchors /\ h <> "" /\ accepted P url domain h x)
  /\ (exists added,
        extract P url domain anchors links = (links ++ added)%list)
  /\ (NoDup links -> NoDup (extract P url domain anchors links)).
Proof.
  unfold extract. revert links.
  induction anchors as [|a anchors IH]; intros links; simpl.
  - split; [|split].
    + intros x. split; [auto | intros [H | (h & [] & _)]; assumption].
    + exists []. now rewrite app_nil_r.
    + auto.
  - destruct (IH (anchor_step P url domain a links)) as (IH1 & [t IH2] & IH3).
    split; [|split].
    + intros x. rewrite IH1. split.
      * intros [Hx | (h & Hin & Hne & Hacc)].
        -- destruct (anchor_step_cases P url domain a links)
             as [E | (h & l & -> & Hne & Ha & E)]; rewrite E in Hx; auto.
           apply In_add in Hx. destruct Hx as [-> | Hx]; auto.
           right. exists h. repeat split; auto. now apply accept_accepted.
        -- right. exists h. auto.
      * intros [Hx | (h & [E | Hin] & Hne & Hacc)].
        -- left. destruct (anchor_step_grows P url domain a links) as [ad ->].
           apply in_or_app. now left.
        -- left. subst a. apply anchor_step_In; auto.
        -- right. exists h. auto.
    + destruct (anchor_step_grows P url domain a links) as [ad E].
      exists (ad ++ t)%list. now rewrite IH2, E, app_assoc.
    + intros Hnd. apply IH3.
      destruct (anchor_step_cases P url domain a links)
        as [E | (h & l & _ & _ & _ & E)]; rewrite E; auto.
      now apply NoDup_add.
Qed.

(** X5. Running the anchors loop a second time over the same anchors
    changes nothing: a page seen again, or an [href] repeated on a page,
    adds no link. *)
Theorem extract_idempotent (P : Platform) (url : string)
  (domain : list string) (anchors : list (option string))
  (links : JSSet.t) :
  extract P url domain anchors (extract P url domain anchors links)
  = extract P url domain anchors links
  /\ extract P url domain (anchors ++ anchors) links
     = extract P url domain anchors links.
Proof.
  assert (H : extract P url domain anchors
                (extract P url domain anchors links)
              = extract P url domain anchors links).
  { apply extract_nothing_new. intros h l Hin Hne Ha.
    now apply (extract_accept_In P url domain anchors links h l). }
  split; [exact H|]. unfold extract in *. now rewrite fold_left_app.
Qed.

(** ** The loop and the observer do not meet *)

(** X6. The responses that the observer sees have no effect on the
    crawl: two runs whose driver reports the same pages and whose draws
    are the same visit the same pages and find the same links, step by
    step, whatever responses arrive in between. *)
Theorem crawl_ignores_responses (P : Platform) (env env' : Env)
  (url : string) (domain : list string) (maxPages : nat) (n : nat)
  (Hdriver : forall k target, driver env k target = driver env' k target)
  (Hrandom : forall k, random env k = random env' k) :
  let c := run P env url domain maxPages n in
  let c' := run P env' url domain maxPages n in
  links c = links c' /\ visits c = visits c' /\ nextUrl c = nextUrl c'
  /\ i c = i c' /\ pc c = pc c' /\ navigations c = navigations c'.
Proof.
  induction n as [|n (Hl & Hv & Hn & Hi & Hp & Hg)].
  - simpl. repeat split.
  - simpl. unfold step. simpl. rewrite <- Hl, <- Hv, <- Hn, <- Hi, <- Hp, <- Hg.
    rewrite <- Hdriver, <- Hrandom.
    destruct (pc (run P env url domain maxPages n)) as [|[|a rest]|e] eqn:E.
    + destruct (i (run P env url domain maxPages n) <? maxPages)%nat;
        simpl; repeat split.
    + destruct (nextUnvisited _ _ _); simpl; repeat split.
    + simpl. repeat split.
    + simpl. repeat split; auto. now rewrite E.
Qed.

Lemma crawl_ignores_responses_witness :
  let page := mkPage (Some 200%Z) [Some "/a"] in
  let env := constant_env page in
  let env' := mkEnv (fun _ _ => page) (fun _ => draw_zero)
                (fun _ => [("https://example.com/a", 404%Z)]) in
  let c := run Reference.platform env "https://example.com/"
             (default_domain "example.com") 3 4 in
  let c' := run Reference.platform env' "https://example.com/"
              (default_domain "example.com") 3 4 in
  (forall k target, driver env k target = driver env' k target)
  /\ (forall k, random env k = random env' k)
  /\ links c = links c' /\ visits c = visits c'
  /\ requests (ledger c) <> requests (ledger c').
Proof.
  intros page env env' c c'.
  destruct (crawl_ignores_responses Reference.platform env env'
              "https://example.com/" (default_domain "example.com") 3 4
              (fun _ _ => eq_refl) (fun _ => eq_refl))
    as (Hl & Hv & _).
  split; [reflexivity|]. split; [reflexivity|].
  split; [exact Hl|]. split; [exact Hv | discriminate].
Defined.

Lemma observe_app (P : Platform) (domain : list string)
  (a b : list (string * Z)) (l : Ledger) :
  observe P domain (a ++ b)%list l = observe P domain b (observe P domain a l).
Proof. unfold observe. apply fold_left_app. Qed.

(** X7. [requests] and [domains] are a function of the responses seen so
    far, in their order, and of nothing else: neither the pages, the
    draws nor the page budget enter. *)
Theorem ledger_of_events (P : Platform) (env : Env) (url : string)
  (domain : list string) (maxPages : nat) (n : nat) :
  ledger (run P env url domain maxPages n)
  = observe P domain (events_before env n) (mkLedger JSMap.empty JSSet.empty).
Proof.
  induction n as [|n IH].
  - reflexivity.
  - rewrite run_S, ledger_step. simpl. now rewrite observe_app, IH.
Qed.

Lemma record_get (P : Platform) (domain : list string) (ev : string * Z)
  (l : Ledger) (url : string) :
  JSMap.get url (requests (record P domain ev l))
  = if String.eqb url (fst ev) then
      match URL_new P (fst ev) None with
      | Some u =>
          if includes domain (hostname u) then Some (snd ev)
          else JSMap.get url (requests l)
      | None => JSMap.get url (requests l)
      end
    else JSMap.get url (requests l).
Proof.
  unfold record. destruct (String.eqb_spec url (fst ev)) as [-> | Hne].
  - destruct (URL_new P (fst ev) None) as [u|]; [|reflexivity]. simpl.
    destruct (includes domain (hostname u)); [apply get_set_same | reflexivity].
  - destruct (URL_new P (fst ev) None) as [u|]; [|reflexivity]. simpl.
    destruct (includes domain (hostname u)); [|reflexivity].
    now apply get_set_other.
Qed.

Lemma record_domains (P : Platform) (domain : list string)
  (ev : string * Z) (l : Ledger) (d : string) :
  In d (domains l) -> In d (domains (record P domain ev l)).
Proof.
  intros H. unfold record. destruct (URL_new P (fst ev) None); [|assumption].
  simpl. apply In_add. now right.
Qed.

Lemma observe_domains (P : Platform) (domain : list string)
  (evs : list (string * Z)) (l : Ledger) (d : string) :
  In d (domains l) -> In d (domains (observe P domain evs l)).
Proof.
  unfold observe. revert l. induction evs as [|ev evs IH]; intros l H; simpl.
  - assumption.
  - apply IH. now apply record_domains.
Qed.

(** X8. After any sequence of responses, the status that [requests]
    holds for a URL is that of the last response for this URL whose host
    name is in the domain list, or the one held before when there was
    none; and [domains] holds the host name of every response whose URL
    parses, in the domain list or not. *)
Theorem observe_last_write (P : Platform) (domain : list string)
  (evs : list (string * Z)) (l : Ledger) :
  (forall url,
     JSMap.get url (requests (observe P domain evs l))
     = match last_recorded P domain url evs with
       | Some s => Some s
       | None => JSMap.get url (requests l)
       end)
  /\ (forall ev u,
        In ev evs -> URL_new P (fst ev) None = Some u ->
        In (hostname u) (domains (observe P domain evs l))).
Proof.
  split.
  - intros url. unfold observe. revert l.
    induction evs as [|ev evs IH]; intros l; simpl; [reflexivity|].
    rewrite IH. destruct (last_recorded P domain url evs); [reflexivity|].
    rewrite record_get. destruct (String.eqb url (fst ev)); [|reflexivity].
    destruct (URL_new P (fst ev) None) as [u|]; [|reflexivity].
    now destruct (includes domain (hostname u)).
  - revert l. induction evs as [|e evs IH]; intros l ev u Hin Hu; [destruct Hin|].
    destruct Hin as [-> | Hin].
    + change (observe P domain (ev :: evs) l)
        with (observe P domain evs (record P domain ev l)).
      apply observe_domains. unfold record. rewrite Hu. simpl.
      apply In_add. now left.
    + change (observe P domain (e :: evs) l)
        with (observe P domain evs (record P domain e l)).
      now apply (IH _ ev u).
Qed.

(** ** An edge of the extension filter *)

Lemma lower_ascii_dot (c : ascii) : lower_ascii c = "."%char -> c = "."%char.
Proof.
  destruct c as [[] [] [] [] [] [] [] []]; vm_compute; congruence.
Qed.

Lemma SKIP_EXTENSIONS_dot (ext : string) :
  In ext SKIP_EXTENSIONS -> exists r, ext = String "."%char r.
Proof.
  assert (H : forallb (fun e => match e with
                                | String c _ => Ascii.eqb c "."%char
                                | EmptyString => false
                                end) SKIP_EXTENSIONS = true)
    by reflexivity.
  rewrite forallb_forall in H. intros Hin. specialize (H ext Hin).
  destruct ext as [|c r]; [discriminate|].
  apply Ascii.eqb_eq in H. subst c. now exists r.
Qed.

(** X9. A URL whose path has no dot is never skipped: every extension of
    [SKIP_EXTENSIONS] starts with a dot. Paths such as [/], [/about] or
    [/docs/intro/] always pass the filter. *)
Theorem shouldSkipUrl_needs_dot (P : Platform) (url : string) (u : URL)
  (Hvalid : URL_new P url None = Some u)
  (Hnodot : has_char "." (pathname u) = false) :
  shouldSkipUrl P url = Some false.
Proof.
  assert (Hsome : exists r, shouldSkipUrl P url = Some r).
  { unfold shouldSkipUrl. rewrite Hvalid. eauto. }
  destruct Hsome as [[|] Hr]; [exfalso | assumption].
  apply (shouldSkipUrl_true P url u Hvalid) in Hr.
  destruct Hr as (ext & Hin & a & b & Hp & Hb).
  rewrite (SKIP_EXTENSIONS_lower ext Hin) in Hb.
  destruct (SKIP_EXTENSIONS_dot ext Hin) as [r ->].
  destruct b as [|c b]; [discriminate|]. simpl in Hb. injection Hb as Hc _.
  apply lower_ascii_dot in Hc. subst c.
  rewrite Hp, has_char_app in Hnodot. simpl in Hnodot.
  now rewrite orb_true_r in Hnodot.
Qed.

Lemma shouldSkipUrl_needs_dot_witness :
  let u := mkURL "https" "" "" (Some "example.com") None "/docs/intro/"
                 (Some "v=1.2") None in
  URL_new Reference.platform "https://example.com/docs/intro/?v=1.2" None
  = Some u
  /\ has_char "." (pathname u) = false
  /\ shouldSkipUrl Reference.platform "https://example.com/docs/intro/?v=1.2"
     = Some false.
Proof.
  intros u. split; [reflexivity|]. split; [reflexivity|].
  apply (shouldSkipUrl_needs_dot Reference.platform
           "https://example.com/docs/intro/?v=1.2" u); reflexivity.
Defined.

(** ** [main] *)

(** X10. When [main] calls [probe], the callback of [.check] has
    accepted the options, and the list of patterns passed is never empty:
    it is the list given with [--domain] when there is one, every entry of
    which [isValidDomain] accepted, and otherwise the host name of the
    seed followed by its wildcard form. The seed is passed on as typed. *)
Theorem main_reaches_probe (P : Platform) (isValidDomain : string -> bool)
  (argv : Argv) (args : ProbeArgs)
  (Hmain : main P isValidDomain argv = Some args) :
  check P isValidDomain argv = true
  /\ probe_url args = argv_url argv
  /\ probe_domain args <> []
  /\ (forall d, argv_domain argv = Some d -> d <> [] ->
        probe_domain args = d /\ forall x, In x d -> isValidDomain x = true)
  /\ (argv_domain argv = None \/ argv_domain argv = Some [] ->
      exists u, URL_new P (argv_url argv) None = Some u
                /\ probe_domain args = [hostname u; "*." ++ hostname u])
  /\ probe_headless args = negb (argv_showBrowser argv).
Proof.
  unfold main in Hmain.
  destruct (check P isValidDomain argv) eqn:Hc; [|discriminate].
  split; [reflexivity|]. unfold check in Hc.
  destruct (URL_new P (argv_url argv) None) as [u|] eqn:Hu; [|discriminate].
  destruct (argv_domain argv) as [[|d0 d]|] eqn:Hd; simpl in Hmain;
    injection Hmain as <-; simpl;
    (split; [reflexivity|]); (split; [discriminate|]);
    (split; [|split; [|reflexivity]]).
  - intros d' E Hne. injection E as <-. congruence.
  - intros _. now exists u.
  - intros d' E _. injection E as <-. split; [reflexivity|].
    intros x Hx. rewrite forallb_forall in Hc. now apply Hc.
  - intros [E | E]; discriminate.
  - intros d' E. discriminate.
  - intros _. now exists u.
Qed.

Lemma main_reaches_probe_witness :
  let argv := mkArgv "https://example.com/docs" None false false 25 0 10
                     "report.html" in
  let args := mkProbeArgs "https://example.com/docs"
                ["example.com"; "*.example.com"] true
                (10 * inject_Z 1000)%Q false 25 (0 * inject_Z 1000)%Q
                "report.html" in
  main Reference.platform (fun _ => true) argv = Some args
  /\ probe_domain args <> [].
Proof.
  intros argv args. split; [reflexivity|].
  apply (main_reaches_probe Reference.platform (fun _ => true) argv args).
  reflexivity.
Defined.

(** X11. Without [--domain], the observer keeps in [requests] only the
    responses whose host name is the host name of the seed itself (or is
    literally the wildcard pattern): [domain.includes] compares strings,
    so a response from a subdomain, whose pages the wildcard lets the
    crawl follow, is not recorded. *)
Theorem default_domain_requests (P : Platform)
  (isValidDomain : string -> bool) (argv : Argv) (args : ProbeArgs)
  (seed : URL)
  (Hmain : main P isValidDomain argv = Some args)
  (Hnone : argv_domain argv = None)
  (Hseed : URL_new P (argv_url argv) None = Some seed) :
  forall url status l u,
    URL_new P url None = Some u ->
    (hostname u = hostname seed ->
     JSMap.get url (requests (record P (probe_domain args) (url, status) l))
     = Some status)
    /\ (hostname u <> hostname seed ->
        hostname u <> "*." ++ hostname seed ->
        requests (record P (probe_domain args) (url, status) l)
        = requests l).
Proof.
  assert (Hdom : probe_domain args = [hostname seed; "*." ++ hostname seed]).
  { unfold main in Hmain. destruct (check P isValidDomain argv); [|discriminate].
    rewrite Hnone, Hseed in Hmain. simpl in Hmain. now injection Hmain as <-. }
  intros url status l u Hu. rewrite Hdom. unfold record. simpl. rewrite Hu.
  simpl. split.
  - intros E. rewrite E, String.eqb_refl. simpl. apply get_set_same.
  - intros H1 H2. apply String.eqb_neq in H1, H2. now rewrite H1, H2.
Qed.

Lemma default_domain_requests_witness :
  let P := Reference.platform in
  let argv := mkArgv "https://example.com/" None false false 25 0 10
                     "report.html" in
  let args := mkProbeArgs "https://example.com/"
                ["example.com"; "*.example.com"] true
                (10 * inject_Z 1000)%Q false 25 (0 * inject_Z 1000)%Q
                "report.html" in
  let seed := mkURL "https" "" "" (Some "example.com") None "/" None None in
  let u := mkURL "https" "" "" (Some "a.example.com") None "/x" None None in
  main P (fun _ => true) argv = Some args
  /\ argv_domain argv = None
  /\ URL_new P (argv_url argv) None = Some seed
  /\ URL_new P "https://a.example.com/x" None = Some u
  /\ accept P (probe_url args) (probe_domain args) "https://a.example.com/x"
     = Some "https://a.example.com/x"
  /\ (hostname u <> hostname seed ->
      hostname u <> "*." ++ hostname seed ->
      requests (record P (probe_domain args)
                  ("https://a.example.com/x", 200%Z) (mkLedger [] []))
      = []).
Proof.
  intros P argv args seed u.
  repeat (split; [reflexivity|]).
  apply (default_domain_requests P (fun _ => true) argv args seed
           eq_refl eq_refl eq_refl "https://a.example.com/x" 200%Z
           (mkLedger [] []) u eq_refl).
Defined.

(** ** Sorting in [saveReport] *)

Section Sorting.

Context {A : Type}.
Variable comparefn : A -> A -> Z.

Lemma sort_insert_perm (x : A) (l : list A) :
  Permutation (sort_insert comparefn x l) (x :: l).
Proof.
  induction l as [|y l IH]; simpl; [reflexivity|].
  destruct (comparefn x y <? 0)%Z; [reflexivity|].
  rewrite IH. apply perm_swap.
Qed.

Lemma Array_sort_perm (l : list A) : Permutation (Array_sort comparefn l) l.
Proof.
  unfold Array_sort.
  assert (H : forall acc,
             Permutation
               (fold_left (fun a x => sort_insert comparefn x a) l acc)
               (acc ++ l)).
  { induction l as [|x l IH]; intros acc; simpl.
    - now rewrite app_nil_r.
    - rewrite IH, sort_insert_perm. apply Permutation_middle. }
  apply (H []).
Qed.

(** An order that the comparator decides and that is transitive. *)
Variable R : A -> A -> Prop.
Hypothesis R_trans : forall a b c, R a b -> R b c -> R a c.
Hypothesis R_before : forall a b, (comparefn a b < 0)%Z -> R a b.
Hypothesis R_after : forall a b, ~ (comparefn a b < 0)%Z -> R b a.

Lemma sort_insert_sorted (x : A) (l : list A) :
  StronglySorted R l -> StronglySorted R (sort_insert comparefn x l).
Proof.
  induction 1 as [|y l Hs IH Hall]; simpl.
  - repeat constructor.
  - destruct (Z.ltb_spec (comparefn x y) 0) as [Hlt | Hge].
    + constructor; [now constructor|]. constructor; [now apply R_before|].
      eapply Forall_impl; [|exact Hall]. intros z Hz.
      eapply R_trans; [apply R_before|]; eassumption.
    + constructor; [assumption|].
      eapply Permutation_Forall; [symmetry; apply sort_insert_perm|].
      constructor; [apply R_after; lia | assumption].
Qed.

Lemma Array_sort_sorted (l : list A) :
  StronglySorted R (Array_sort comparefn l).
Proof.
  unfold Array_sort.
  assert (H : forall acc, StronglySorted R acc ->
             StronglySorted R
               (fold_left (fun a x => sort_insert comparefn x a) l acc)).
  { induction l as [|x l IH]; intros acc Hacc; simpl; [assumption|].
    apply IH. now apply sort_insert_sorted. }
  apply H. constructor.
Qed.

End Sorting.

Lemma string_leb_trans (a b c : string) :
  String.leb a b = true -> String.leb b c = true -> String.leb a c = true.
Proof.
  unfold String.leb. revert b c.
  induction a as [|x a IH]; intros [|y b] [|z c]; simpl; try congruence.
  unfold Ascii.compare.
  destruct (N.compare_spec (N_of_ascii x) (N_of_ascii y)) as [E1|L1|G1];
    destruct (N.compare_spec (N_of_ascii y) (N_of_ascii z)) as [E2|L2|G2];
    destruct (N.compare_spec (N_of_ascii x) (N_of_ascii z)) as [E3|L3|G3];
    try congruence; try lia.
  apply IH.
Qed.

Lemma defaultCompare_before (a b : string) :
  (defaultCompare a b < 0)%Z -> String.leb a b = true.
Proof.
  unfold defaultCompare, String.leb.
  destruct (String.compare a b); [reflexivity | reflexivity | lia].
Qed.

Lemma defaultCompare_after (a b : string) :
  ~ (defaultCompare a b < 0)%Z -> String.leb b a = true.
Proof.
  unfold defaultCompare, String.leb. intros H.
  rewrite (String.compare_antisym b a).
  destruct (String.compare a b); simpl; [reflexivity | lia | reflexivity].
Qed.

Lemma default_sort_sorted (l : list string) :
  StronglySorted (fun a b => String.leb a b = true)
                 (Array_sort defaultCompare l).
Proof.
  apply Array_sort_sorted.
  - apply string_leb_trans.
  - apply defaultCompare_before.
  - apply defaultCompare_after.
Qed.

Lemma requests_sort_sorted (G : Globals) (l : list (string * Z)) :
  StronglySorted (fun a b => (snd b <= snd a)%Z)
                 (Array_sort (compareRequests G) l).
Proof.
  apply Array_sort_sorted.
  - intros a b c. lia.
  - intros a b. unfold compareRequests.
    destruct (Z.eqb_spec (snd b - snd a) 0); lia.
  - intros a b. unfold compareRequests.
    destruct (Z.eqb_spec (snd b - snd a) 0); lia.
Qed.

Lemma map_throwing_Some {A B : Type} (f : A -> option B) (l : list A)
  (ys : list B) :
  map_throwing f l = Some ys -> Forall2 (fun x y => f x = Some y) l ys.
Proof.
  revert ys. induction l as [|x l IH]; intros ys H; simpl in H.
  - injection H as <-. constructor.
  - destruct (f x) as [y|] eqn:E; [|discriminate].
    destruct (map_throwing f l) as [t|]; [|discriminate].
    injection H as <-. constructor; auto.
Qed.

Lemma map_throwing_None {A B : Type} (f : A -> option B) (l : list A) :
  map_throwing f l = None <-> exists x, In x l /\ f x = None.
Proof.
  induction l as [|x l IH]; simpl.
  - split; [discriminate | intros (x & [] & _)].
  - destruct (f x) as [y|] eqn:E.
    + destruct (map_throwing f l) as [t|].
      * split; [discriminate|]. intros (z & [<- | Hz] & Hf); [congruence|].
        pose proof (proj2 IH (ex_intro _ z (conj Hz Hf))). discriminate.
      * split; [|reflexivity]. intros _.
        destruct (proj1 IH eq_refl) as (z & Hz & Hf). eauto.
    + split; [|reflexivity]. intros _. eauto.
Qed.

(** ** The report *)

Lemma render_anchor_href (G : Globals) (u : string) (a : Anchor) :
  render_anchor G u = Some a ->
  anchor_href a = u /\ decodeURIComponent G u = Some (anchor_text a).
Proof.
  unfold render_anchor. destruct (decodeURIComponent G u); [|discriminate].
  intros H. injection H as <-. auto.
Qed.

Lemma render_request_entry (G : Globals) (e : string * Z)
  (row : Anchor * Z) :
  render_request G e = Some row ->
  (anchor_href (fst row), snd row) = e
  /\ decodeURIComponent G (fst e) = Some (anchor_text (fst row)).
Proof.
  unfold render_request. destruct (render_anchor G (fst e)) as [a|] eqn:E;
    [|discriminate].
  intros H. injection H as <-. apply render_anchor_href in E.
  destruct E as [E1 E2]. simpl. rewrite E1. destruct e. auto.
Qed.

Lemma Forall2_map_back {A B : Type} (f : A -> option B) (g : B -> A)
  (l : list A) (ys : list B) :
  (forall x y, f x = Some y -> g y = x) ->
  Forall2 (fun x y => f x = Some y) l ys -> map g ys = l.
Proof.
  intros Hg. induction 1 as [|x y l ys Hxy _ IH]; simpl; [reflexivity|].
  now rewrite IH, (Hg x y Hxy).
Qed.

(** The pieces of a report that was written. *)
Lemma saveReport_Some (G : Globals) (url : string) (links visits : JSSet.t)
  (requests : JSMap.t) (domains : JSSet.t) (r : Report) :
  saveReport G url links visits requests domains = Some r ->
  map row_entry (requestRows r) = Array_sort (compareRequests G) requests
  /\ map anchor_href (visitedRows r) = Array_sort defaultCompare visits
  /\ map anchor_href (linkRows r) = Array_sort defaultCompare links
  /\ domainRows r = Array_sort defaultCompare domains
  /\ pagesVisited r = List.length visits
  /\ linksFound r = List.length links
  /\ okCount r = List.length (okRequests requests)
  /\ errorCount r = List.length (errorRequests requests)
  /\ domainsCount r = List.length domains
  /\ requestsCount r = List.length requests.
Proof.
  unfold saveReport.
  destruct (map_throwing (render_request G) _) as [reqRows|] eqn:E1;
    [|discriminate].
  destruct (map_throwing (render_anchor G) (Array_sort defaultCompare visits))
    as [visRows|] eqn:E2; [|discriminate].
  destruct (map_throwing (render_anchor G) (Array_sort defaultCompare links))
    as [lnkRows|] eqn:E3; [|discriminate].
  intros H. injection H as <-. simpl.
  apply map_throwing_Some in E1, E2, E3.
  repeat split.
  - apply (Forall2_map_back (render_request G)); [|exact E1].
    intros x y Hxy. now apply render_request_entry in Hxy.
  - apply (Forall2_map_back (render_anchor G)); [|exact E2].
    intros x y Hxy. now apply render_anchor_href in Hxy.
  - apply (Forall2_map_back (render_anchor G)); [|exact E3].
    intros x y Hxy. now apply render_anchor_href in Hxy.
Qed.

(** X12. [saveReport] throws before it writes anything exactly when
    [decodeURIComponent] throws on one of the URLs it prints: a key of
    [requests], a visited page or a link found. Host names in [domains]
    are printed as they are and cannot make it fail. *)
Theorem saveReport_throws (G : Globals) (url : string)
  (links visits : JSSet.t) (requests : JSMap.t) (domains : JSSet.t) :
  saveReport G url links visits requests domains = None <->
  exists u,
    (In u (JSMap.keys requests) \/ In u visits \/ In u links)
    /\ decodeURIComponent G u = None.
Proof.
  assert (Hanchor : forall l,
            map_throwing (render_anchor G) (Array_sort defaultCompare l) = None
            <-> exists u, In u l /\ decodeURIComponent G u = None).
  { intros l. rewrite map_throwing_None. split; intros (u & Hin & Hf).
    - exists u. split.
      + eapply Permutation_in; [apply Array_sort_perm | exact Hin].
      + unfold render_anchor in Hf.
        now destruct (decodeURIComponent G u).
    - exists u. split.
      + eapply Permutation_in; [symmetry; apply Array_sort_perm | exact Hin].
      + unfold render_anchor. now rewrite Hf. }
  assert (Hreq : map_throwing (render_request G)
                   (Array_sort (compareRequests G) requests) = None
                 <-> exists u, In u (JSMap.keys requests)
                               /\ decodeURIComponent G u = None).
  { rewrite map_throwing_None. split.
    - intros (e & Hin & Hf). exists (fst e). split.
      + apply in_map. eapply Permutation_in; [apply Array_sort_perm | exact Hin].
      + unfold render_request, render_anchor in Hf.
        now destruct (decodeURIComponent G (fst e)).
    - intros (u & Hin & Hf). apply in_map_iff in Hin.
      destruct Hin as (e & <- & Hin). exists e. split.
      + eapply Permutation_in; [symmetry; apply Array_sort_perm | exact Hin].
      + unfold render_request, render_anchor. now rewrite Hf. }
  unfold saveReport.
  destruct (map_throwing (render_request G) _) as [reqRows|] eqn:E1.
  - destruct (map_throwing (render_anchor G)
                (Array_sort defaultCompare visits)) as [visRows|] eqn:E2.
    + destruct (map_throwing (render_anchor G)
                  (Array_sort defaultCompare links)) as [lnkRows|] eqn:E3.
      * split; [discriminate|]. intros (u & [H | [H | H]] & Hf).
        -- assert (Hn : @Some (list (Anchor * Z)) reqRows = None)
             by (apply Hreq; eauto). discriminate.
        -- assert (Hn : Some visRows = None)
             by (rewrite <- E2; apply Hanchor; eauto). discriminate.
        -- assert (Hn : Some lnkRows = None)
             by (rewrite <- E3; apply Hanchor; eauto). discriminate.
      * split; [|reflexivity]. intros _.
        destruct (proj1 (Hanchor links) E3) as (u & Hin & Hf). eauto.
    + split; [|reflexivity]. intros _.
      destruct (proj1 (Hanchor visits) E2) as (u & Hin & Hf). eauto.
  - split; [|reflexivity]. intros _.
    destruct (proj1 Hreq eq_refl) as (u & Hin & Hf). eauto.
Qed.

Lemma ok_error_partition (requests : JSMap.t) :
  List.length (okRequests requests) + List.length (errorRequests requests)
  = List.length requests.
Proof.
  unfold okRequests, errorRequests.
  induction requests as [|e l IH]; simpl; [reflexivity|].
  destruct (Z.ltb_spec (snd e) 400), (Z.leb_spec 400 (snd e)); simpl; lia.
Qed.

(** X13. In a report that is written, the counters agree with the
    listings: the OK and the error requests add up to the requests, and
    each heading count is the number of rows printed under it. *)
Theorem report_counts (G : Globals) (url : string)
  (links visits : JSSet.t) (requests : JSMap.t) (domains : JSSet.t)
  (r : Report)
  (Hsaved : saveReport G url links visits requests domains = Some r) :
  okCount r + errorCount r = requestsCount r
  /\ requestsCount r = List.length (requestRows r)
  /\ pagesVisited r = List.length (visitedRows r)
  /\ linksFound r = List.length (linkRows r)
  /\ domainsCount r = List.length (domainRows r).
Proof.
  destruct (saveReport_Some _ _ _ _ _ _ _ Hsaved)
    as (H1 & H2 & H3 & H4 & -> & -> & -> & -> & -> & ->).
  split; [apply ok_error_partition|].
  rewrite <- (length_map row_entry (requestRows r)), H1.
  rewrite <- (length_map anchor_href (visitedRows r)), H2.
  rewrite <- (length_map anchor_href (linkRows r)), H3, H4.
  repeat split; symmetry; apply Permutation_length, Array_sort_perm.
Qed.

(** X14. In a report that is written, the request rows are the entries
    of [requests], each once, in order of status from the highest down;
    the visited pages, the links and
    the domains are listed each once in ascending order of their code
    units; and the text of every link is [decodeURIComponent] of its
    [href]. *)
Theorem report_listings (G : Globals) (url : string)
  (links visits : JSSet.t) (requests : JSMap.t) (domains : JSSet.t)
  (r : Report)
  (Hsaved : saveReport G url links visits requests domains = Some r) :
  let ascending := StronglySorted (fun a b => String.leb a b = true) in
  Permutation (map row_entry (requestRows r)) requests
  /\ StronglySorted (fun a b => (snd b <= snd a)%Z)
       (map row_entry (requestRows r))
  /\ Permutation (map anchor_href (visitedRows r)) visits
  /\ ascending (map anchor_href (visitedRows r))
  /\ Permutation (map anchor_href (linkRows r)) links
  /\ ascending (map anchor_href (linkRows r))
  /\ Permutation (domainRows r) domains
  /\ ascending (domainRows r)
  /\ (forall a,
        In a (map fst (requestRows r) ++ visitedRows r ++ linkRows r)%list ->
        decodeURIComponent G (anchor_href a) = Some (anchor_text a)).
Proof.
  intros ascending.
  destruct (saveReport_Some _ _ _ _ _ _ _ Hsaved) as (H1 & H2 & H3 & H4 & _).
  rewrite H1, H2, H3, H4.
  repeat split; try apply Array_sort_perm; try apply default_sort_sorted;
    try apply requests_sort_sorted.
  clear H1 H2 H3 H4. unfold saveReport in Hsaved.
  destruct (map_throwing (render_request G) _) as [reqRows|] eqn:E1;
    [|discriminate].
  destruct (map_throwing (render_anchor G) (Array_sort defaultCompare visits))
    as [visRows|] eqn:E2; [|discriminate].
  destruct (map_throwing (render_anchor G) (Array_sort defaultCompare links))
    as [lnkRows|] eqn:E3; [|discriminate].
  injection Hsaved as <-. simpl.
  apply map_throwing_Some in E1, E2, E3.
  assert (Ha : forall l rows,
            Forall2 (fun x y => render_anchor G x = Some y) l rows ->
            forall a, In a rows ->
              decodeURIComponent G (anchor_href a) = Some (anchor_text a)).
  { induction 1 as [|x y l rows Hxy _ IH]; intros a Hin; [destruct Hin|].
    destruct Hin as [<- | Hin]; [|now apply IH].
    apply render_anchor_href in Hxy. destruct Hxy as [-> E]. exact E. }
  intros a Hin. apply in_app_or in Hin. destruct Hin as [Hin | Hin].
  - clear E2 E3. induction E1 as [|x y l rows Hxy _ IH]; [destruct Hin|].
    destruct Hin as [<- | Hin]; [|now apply IH].
    apply render_request_entry in Hxy. destruct Hxy as [<- E]. exact E.
  - apply in_app_or in Hin.
    destruct Hin as [Hin | Hin];
      [apply (Ha _ _ E2 a Hin) | apply (Ha _ _ E3 a Hin)].
Qed.

Lemma report_counts_witness :
  exists r,
    saveReport plain_globals "https://example.com/"
      ["https://example.com/a"] ["https://example.com/"]
      [("https://example.com/", 200%Z); ("https://example.com/x", 404%Z)]
      ["example.com"] = Some r
    /\ okCount r + errorCount r = requestsCount r
    /\ requestsCount r = List.length (requestRows r).
Proof.
  eexists. split; [reflexivity|].
  destruct (report_counts plain_globals "https://example.com/"
              ["https://example.com/a"] ["https://example.com/"]
              [("https://example.com/", 200%Z);
               ("https://example.com/x", 404%Z)]
              ["example.com"] _ eq_refl) as (H1 & H2 & _).
  split; [exact H1 | exact H2].
Defined.

Lemma report_listings_witness :
  exists r,
    saveReport plain_globals "https://example.com/"
      ["https://example.com/b"; "https://example.com/a"]
      ["https://example.com/"; "https://example.com/b"]
      [("https://example.com/", 200%Z); ("https://example.com/x", 404%Z)]
      ["example.com"; "cdn.example.net"] = Some r
    /\ map row_entry (requestRows r)
       = [("https://example.com/x", 404%Z); ("https://example.com/", 200%Z)]
    /\ Permutation (map anchor_href (linkRows r))
         ["https://example.com/b"; "https://example.com/a"].
Proof.
  eexists. split; [reflexivity|]. split; [reflexivity|].
  destruct (report_listings plain_globals "https://example.com/"
              ["https://example.com/b"; "https://example.com/a"]
              ["https://example.com/"; "https://example.com/b"]
              [("https://example.com/", 200%Z);
               ("https://example.com/x", 404%Z)]
              ["example.com"; "cdn.example.net"] _ eq_refl)
    as (_ & _ & _ & _ & H5 & _).
  exact H5.
Defined.

(** X15. The report at the end of a run: the count of pages visited is
    the number of navigations made, at most [maxPages] and at most one
    more than the count of links found; every row of the requests table
    is for a URL whose host name is in the domain list; every link listed
    is what the anchors loop accepted for some [href]: that [href]
    resolved against the seed, fragment cleared, with a host name that
    matches a pattern of the scope and with [shouldSkipUrl] false. *)
Theorem report_of_run (P : Platform) (G : Globals) (env : Env)
  (url : string) (domain : list string) (maxPages : nat) (n : nat)
  (r : Report)
  (Hsaved : probe_report G url (run P env url domain maxPages n) = Some r) :
  pagesVisited r = List.length (navigations (run P env url domain maxPages n))
  /\ pagesVisited r <= maxPages
  /\ pagesVisited r <= S (linksFound r)
  /\ (forall row, In row (requestRows r) ->
        exists u, URL_new P (anchor_href (fst row)) None = Some u
                  /\ In (hostname u) domain)
  /\ (forall a, In a (linkRows r) ->
        exists h, accepted P url domain h (anchor_href a)).
Proof.
  unfold probe_report in Hsaved.
  destruct (saveReport_Some _ _ _ _ _ _ _ Hsaved)
    as (H1 & _ & H3 & _ & -> & -> & _).
  destruct (visit_log_run P env url domain maxPages n) as (Hv & _).
  destruct (run_inv P env url domain maxPages n)
    as [(Hincl & _ & _ & Hnd & Hlink) Hnav].
  split; [now rewrite Hv|]. split; [|split; [|split]].
  - rewrite Hv. unfold nav_inv in Hnav.
    destruct (pc (run P env url domain maxPages n)) as [| |[|]]; lia.
  - apply (NoDup_incl_length Hnd Hincl).
  - intros row Hrow. apply (ledger_run P env url domain maxPages n).
    change (anchor_href (fst row)) with (fst (row_entry row)).
    apply in_map. eapply Permutation_in; [apply Array_sort_perm|].
    rewrite <- H1. now apply in_map.
  - intros a Ha. apply Hlink.
    eapply Permutation_in; [apply Array_sort_perm|].
    rewrite <- H3. now apply in_map.
Qed.

Lemma report_of_run_witness :
  let c := run Reference.platform
             (mkEnv (fun _ _ => mkPage (Some 200%Z) [Some "/a"])
                (fun _ => draw_zero)
                (fun _ => [("https://example.com/", 200%Z);
                           ("https://cdn.example.net/x.js", 200%Z)]))
             "https://example.com/" (default_domain "example.com") 2 6 in
  exists r,
    probe_report plain_globals "https://example.com/" c = Some r
    /\ pagesVisited r = 2
    /\ pagesVisited r = List.length (navigations c).
Proof.
  intros c. eexists. split; [reflexivity|]. split; [reflexivity|].
  destruct (report_of_run Reference.platform plain_globals
              (mkEnv (fun _ _ => mkPage (Some 200%Z) [Some "/a"])
                 (fun _ => draw_zero)
                 (fun _ => [("https://example.com/", 200%Z);
                            ("https://cdn.example.net/x.js", 200%Z)]))
              "https://example.com/" (default_domain "example.com") 2 6
              _ eq_refl) as (H1 & _).
  exact H1.
Defined.

(** ** [humanBehavior] *)

Lemma mouse_round_in_bounds (rand : nat -> Draw) (k : nat) :
  Forall mouse_in_bounds (mouse_round rand k).
Proof.
  unfold mouse_round. apply Forall_cons; [|apply Forall_cons; [exact I|]].
  - unfold mouse_in_bounds.
    pose proof (random_index_lt (rand (4 * k)) 700).
    pose proof (random_index_lt (rand (4 * k + 1)) 500).
    pose proof (random_index_lt (rand (4 * k + 2)) 20).
    lia.
  - apply Forall_nil.
Qed.

(** X16. [humanBehavior] moves the pointer five times, always to a point
    with x from 100 to 799 and y from 100 to 599, in 5 to 24 steps, and
    calls the page nineteen times in all. *)
Theorem humanBehavior_pointer (rand : nat -> Draw) :
  Forall mouse_in_bounds (humanBehavior rand)
  /\ List.length (filter is_mouse_move (humanBehavior rand)) = 5
  /\ List.length (humanBehavior rand) = 19.
Proof.
  split; [|split; reflexivity].
  unfold humanBehavior. apply Forall_app. split.
  - apply Forall_flat_map, Forall_forall. intros k _.
    apply mouse_round_in_bounds.
  - apply Forall_app. split.
    + apply Forall_flat_map, Forall_forall. intros k _.
      unfold scroll_round. repeat (apply Forall_cons; [exact I|]).
      apply Forall_nil.
    + repeat (apply Forall_cons; [exact I|]). apply Forall_nil.
Qed.


(** ** When [main] stops before [probe] *)

(** X18. On option values that yargs has parsed, the callback of
    [.check] throws exactly when [new URL] rejects the seed or
    [isValidDomain] rejects one of the patterns given with [--domain];
    and the statements of [main] after the parsing reach the call of
    [probe] exactly when that callback did not throw. *)
Theorem main_rejects (P : Platform) (isValidDomain : string -> bool)
  (argv : Argv) :
  (check P isValidDomain argv = false <->
   URL_new P (argv_url argv) None = None
   \/ exists ds x, argv_domain argv = Some ds /\ In x ds
                   /\ isValidDomain x = false)
  /\ (main P isValidDomain argv = None <->
      check P isValidDomain argv = false).
Proof.
  split.
  - unfold check.
    destruct (URL_new P (argv_url argv) None) as [u|] eqn:Hu;
      [|split; auto].
    destruct (argv_domain argv) as [ds|] eqn:Hd.
    + split.
      * intros Hf. right.
        assert (Hex : existsb (fun x => negb (isValidDomain x)) ds = true).
        { clear Hd. induction ds as [|d ds IH]; simpl in *; [discriminate|].
          destruct (isValidDomain d); simpl in *; auto. }
        apply existsb_exists in Hex. destruct Hex as (x & Hx & Hv).
        exists ds, x. apply negb_true_iff in Hv. auto.
      * intros [E | (ds' & x & E & Hx & Hv)]; [discriminate|].
        injection E as <-. apply not_true_is_false. intros Hf.
        rewrite forallb_forall in Hf. rewrite (Hf x Hx) in Hv. discriminate.
    + split; [discriminate|].
      intros [E | (ds' & x & E & _)]; discriminate.
  - unfold main. destruct (check P isValidDomain argv) eqn:Hc;
      [|split; reflexivity].
    unfold check in Hc.
    destruct (URL_new P (argv_url argv) None) as [u|]; [|discriminate].
    split; [|discriminate].
    destruct (argv_domain argv) as [[|d ds]|]; simpl; discriminate.
Qed.
